(** * update_local_repo.py: parallel ranged download with SHA-256 verification

    A shallow embedding of [src/update_local_repo.py].  Python integers are
    unbounded and are modelled by [Z]; [str] values by [string]; [bytes] by
    [list byte]; the [expected_hashes] dict by a [gmap string string].
    The network, the file system and the log are threaded through a small
    state-and-exception monad. *)

From Stdlib Require Import ZArith NArith Lia Ascii String List.
From Stdlib.Strings Require Import Byte.
From stdpp Require Import base tactics option list gmap strings.

Local Open Scope Z_scope.

(** ** Range planning (download_file, lines 107-109) *)

(** [range(n)] for an int [n]: empty when [n <= 0]. *)
Definition py_range (n : Z) : list Z := Z.of_nat <$> seq 0 (Z.to_nat n).

(** One entry of the list comprehension of line 108. *)
Definition range_entry (total_size num_threads chunk_size i : Z) : Z * Z :=
  (i * chunk_size,
   if bool_decide (i < num_threads - 1)
   then (i + 1) * chunk_size - 1
   else total_size - 1).

(** Lines 107-109.  [//] is floor division, as [Z.div]; the caller has
    already excluded [num_threads = 0] (ZeroDivisionError). *)
Definition plan_ranges (total_size num_threads : Z) : list (Z * Z) :=
  let chunk_size := total_size `div` num_threads in
  range_entry total_size num_threads chunk_size <$> py_range num_threads.

(** Membership of an offset in an inclusive range; a range whose end is
    below its start holds no offset. *)
Definition in_range (r : Z * Z) (x : Z) : Prop := r.1 ≤ x ≤ r.2.

Definition range_len (r : Z * Z) : Z := r.2 - r.1 + 1.

Definition range_empty (r : Z * Z) : Prop := r.2 < r.1.


(** ** Python strings and paths

    A [str] is modelled by the [string] of its UTF-8 bytes.  The operations
    the script applies ([endswith], [startswith], slicing off an ASCII
    prefix, equality, splitting at ['/']) agree on that encoding.
    [str.lower] is modelled on the ASCII letters, which is what it does on
    the hexadecimal digests it is applied to. *)

Definition chars (s : string) : list ascii := list_ascii_of_string s.
Definition of_chars (l : list ascii) : string := string_of_list_ascii l.

(** [s.startswith(p)] *)
Definition str_startswith (s p : string) : bool := String.prefix p s.

(** [s.endswith(p)] *)
Definition str_endswith (s p : string) : bool :=
  String.prefix (of_chars (rev (chars p))) (of_chars (rev (chars s))).

(** [s[n:]] *)
Definition str_from (n : nat) (s : string) : string :=
  of_chars (drop n (chars s)).

(** [s[:n]] *)
Definition str_upto (n : nat) (s : string) : string :=
  of_chars (take n (chars s)).

Definition ascii_lower (c : ascii) : ascii :=
  let n := nat_of_ascii c in
  if (65 <=? n)%nat && (n <=? 90)%nat then ascii_of_nat (n + 32) else c.

(** [s.lower()] *)
Definition str_lower (s : string) : string :=
  of_chars (ascii_lower <$> chars s).

Definition slash : ascii := "/"%char.

Definition is_slash (c : ascii) : bool := bool_decide (c = slash).

(** The characters after the last ['/'] of [l] ([acc] collects the
    component being read). *)
Fixpoint after_last_slash (l acc : list ascii) : list ascii :=
  match l with
  | [] => acc
  | c :: l' =>
      if is_slash c then after_last_slash l' []
      else after_last_slash l' (acc ++ [c])
  end.

(** [os.path.basename(p)]: [p[p.rfind('/') + 1:]]. *)
Definition basename (p : string) : string :=
  of_chars (after_last_slash (chars p) []).

(** [l] without its leading slashes. *)
Fixpoint lstrip_slash (l : list ascii) : list ascii :=
  match l with
  | c :: l' => if is_slash c then lstrip_slash l' else l
  | [] => []
  end.

(** [s.rstrip('/')] on a character list. *)
Definition rstrip_slash (l : list ascii) : list ascii :=
  rev (lstrip_slash (rev l)).

(** [os.path.dirname(p)]: the part up to and including the last ['/'],
    with trailing slashes removed unless it consists of slashes only. *)
Definition dirname (p : string) : string :=
  let l := chars p in
  let head := take (length l - length (after_last_slash l [])) l in
  if forallb is_slash head then of_chars head
  else of_chars (rstrip_slash head).

(** The proper ancestors of a directory, nearest first: [dirname] iterated
    until it yields [""] or stops changing. *)
Fixpoint ancestors_fuel (fuel : nat) (d : string) : list string :=
  match fuel with
  | O => []
  | S k =>
      let up := dirname d in
      if bool_decide (up = ""%string ∨ up = d) then []
      else up :: ancestors_fuel k up
  end.

Definition ancestors (d : string) : list string :=
  ancestors_fuel (String.length d) d.

(** ** Bytes *)

Abbreviation bytes := (list byte).

(** [n] zero bytes, the content of a freshly extended file. *)
Definition zeros (n : nat) : bytes := replicate n x00.

(** The effect of [seek(off)] followed by [write(data)] on a file opened
    ['r+b']: bytes before [off] are kept, a gap beyond the old end is
    zero-filled, [data] overwrites from [off], the old tail is kept. *)
Definition write_at (content : bytes) (off : nat) (data : bytes) : bytes :=
  take off content ++ zeros (off - length content) ++ data
  ++ drop (off + length data) content.

(** ** SHA-256 ([hashlib.sha256], FIPS 180-4)

    32-bit words are [N] values below [2^32]; additions wrap modulo
    [2^32]. *)

Definition mask32 : N := 0xffffffff%N.

Definition add32 (a b : N) : N := N.land (a + b) mask32.

Definition rotr32 (n x : N) : N :=
  N.lor (N.shiftr x n) (N.land (N.shiftl x (32 - n)) mask32).

Definition not32 (x : N) : N := N.lxor x mask32.

Definition sha_ch (x y z : N) : N :=
  N.lxor (N.land x y) (N.land (not32 x) z).

Definition sha_maj (x y z : N) : N :=
  N.lxor (N.lxor (N.land x y) (N.land x z)) (N.land y z).

Definition big_sigma0 (x : N) : N :=
  N.lxor (N.lxor (rotr32 2 x) (rotr32 13 x)) (rotr32 22 x).

Definition big_sigma1 (x : N) : N :=
  N.lxor (N.lxor (rotr32 6 x) (rotr32 11 x)) (rotr32 25 x).

Definition small_sigma0 (x : N) : N :=
  N.lxor (N.lxor (rotr32 7 x) (rotr32 18 x)) (N.shiftr x 3).

Definition small_sigma1 (x : N) : N :=
  N.lxor (N.lxor (rotr32 17 x) (rotr32 19 x)) (N.shiftr x 10).

(** The first 64 primes. *)
Definition sha_primes : list N :=
  [2; 3; 5; 7; 11; 13; 17; 19; 23; 29; 31; 37; 41; 43; 47; 53; 59; 61; 67;
   71; 73; 79; 83; 89; 97; 101; 103; 107; 109; 113; 127; 131; 137; 139; 149;
   151; 157; 163; 167; 173; 179; 181; 191; 193; 197; 199; 211; 223; 227;
   229; 233; 239; 241; 251; 257; 263; 269; 271; 277; 281; 283; 293; 307;
   311]%N.

(** The integer cube root of [x], found bit by bit from bit [bits - 1]
    down; [r] is the part already fixed. *)
Fixpoint cube_root_bits (bits : nat) (x r : N) : N :=
  match bits with
  | O => r
  | S k =>
      let r' := (r + N.shiftl 1 (N.of_nat k))%N in
      cube_root_bits k x (if (r' * r' * r' <=? x)%N then r' else r)
  end.

(** The first 32 bits of the fractional part of the cube root of [p]. *)
Definition frac_cube_root (p : N) : N :=
  N.land (cube_root_bits 40 (N.shiftl p 96) 0) mask32.

(** The first 32 bits of the fractional part of the square root of [p]. *)
Definition frac_square_root (p : N) : N :=
  N.land (N.sqrt (N.shiftl p 64)) mask32.

(** The round constants: from the cube roots of the first 64 primes. *)
Definition sha_k : list N := Eval vm_compute in frac_cube_root <$> sha_primes.

(** Big-endian encoding of [x] on [n] bytes. *)
Fixpoint be_bytes (n : nat) (x : N) : list N :=
  match n with
  | O => []
  | S k => (N.shiftr x (8 * N.of_nat k) mod 256)%N :: be_bytes k x
  end.

(** Padding: the message, a [0x80] byte, zero bytes up to 56 modulo 64,
    then the bit length on 8 bytes. *)
Definition sha_pad (msg : list N) : list N :=
  let len := length msg in
  let fill := ((64 + 55 - len mod 64) mod 64)%nat in
  msg ++ [0x80%N] ++ replicate fill 0%N ++ be_bytes 8 (8 * N.of_nat len).

(** Big-endian words of a byte list (4 bytes per word). *)
Fixpoint be_words (l : list N) : list N :=
  match l with
  | a :: b :: c :: d :: l' =>
      (N.shiftl a 24 + N.shiftl b 16 + N.shiftl c 8 + d)%N :: be_words l'
  | _ => []
  end.

(** The message schedule, most recent word first: [rw] holds
    [W[t-1], W[t-2], ...]; [n] more words are appended. *)
Fixpoint sha_schedule (n : nat) (rw : list N) : list N :=
  match n with
  | O => rw
  | S k =>
      let w := add32 (add32 (small_sigma1 (nth 1 rw 0%N)) (nth 6 rw 0%N))
                     (add32 (small_sigma0 (nth 14 rw 0%N)) (nth 15 rw 0%N)) in
      sha_schedule k (w :: rw)
  end.

Record sha_state := ShaState {
  sa : N; sb : N; sc : N; sd : N; se : N; sf : N; sg : N; sh : N }.

Definition sha_round (s : sha_state) (kw : N * N) : sha_state :=
  let t1 := add32 (add32 (add32 (sh s) (big_sigma1 (se s)))
                         (add32 (sha_ch (se s) (sf s) (sg s)) kw.1)) kw.2 in
  let t2 := add32 (big_sigma0 (sa s)) (sha_maj (sa s) (sb s) (sc s)) in
  ShaState (add32 t1 t2) (sa s) (sb s) (sc s)
           (add32 (sd s) t1) (se s) (sf s) (sg s).

Definition sha_add (s t : sha_state) : sha_state :=
  ShaState (add32 (sa s) (sa t)) (add32 (sb s) (sb t))
           (add32 (sc s) (sc t)) (add32 (sd s) (sd t))
           (add32 (se s) (se t)) (add32 (sf s) (sf t))
           (add32 (sg s) (sg t)) (add32 (sh s) (sh t)).

(** One 64-byte block, given as its 16 words. *)
Definition sha_block (s : sha_state) (block : list N) : sha_state :=
  let w := rev (sha_schedule 48 (rev block)) in
  sha_add s (foldl sha_round s (zip sha_k w)).

(** The blocks of a padded message; [n] bounds their number. *)
Fixpoint sha_blocks (n : nat) (s : sha_state) (ws : list N) : sha_state :=
  match n with
  | O => s
  | S k =>
      match ws with
      | [] => s
      | _ => sha_blocks k (sha_block s (take 16 ws)) (drop 16 ws)
      end
  end.

(** The initial hash value: from the square roots of the first 8 primes. *)
Definition sha_state_init : sha_state :=
  ShaState (frac_square_root 2) (frac_square_root 3) (frac_square_root 5)
           (frac_square_root 7) (frac_square_root 11) (frac_square_root 13)
           (frac_square_root 17) (frac_square_root 19).

Definition sha_words (s : sha_state) : list N :=
  [sa s; sb s; sc s; sd s; se s; sf s; sg s; sh s].

(** The 32 digest bytes of a message. *)
Definition sha256 (data : bytes) : list N :=
  let ws := be_words (sha_pad (Byte.to_N <$> data)) in
  mjoin (be_bytes 4 <$> sha_words (sha_blocks (length ws) sha_state_init ws)).

Definition hex_digit (n : N) : ascii :=
  nth (N.to_nat n) (chars "0123456789abcdef") "0"%char.

(** [hexdigest()]: two lowercase hexadecimal digits per byte. *)
Definition hexdigest (digest : list N) : string :=
  of_chars (mjoin ((λ b, [hex_digit (b / 16)%N; hex_digit (b mod 16)%N])
                     <$> digest)).

(** ** Exceptions

    The exception classes the script can meet.  [IOError] is Python's alias
    of [OSError]; [HTTPError] is a subclass of [URLError], itself a subclass
    of [OSError]; [JSONDecodeError] is a subclass of [ValueError]. *)

Inductive message :=
  | MsgNoSize                       (* "Could not determine file size" *)
  | MsgNoExpectedHash (filename : string) (available : gset string)
  | MsgHashFailed (path : string)   (* "Hash computation failed for ..." *)
  | MsgHashMismatch (path expected got : string)
  | MsgAutoFetchFailed              (* "Failed to auto-fetch expected hashes ..." *)
  | MsgMaxWorkers                   (* "max_workers must be greater than 0" *)
  | MsgInvalidLiteral (raw : string). (* int() on a non-numeric header *)

Inductive exn :=
  | HTTPError (code : Z)
  | URLError (reason : string)
  | OSError (reason : string)
  | JSONDecodeError
  | ValueError (msg : message)
  | ZeroDivisionError
  | AttributeError
  | TypeError
  | KeyError (key : string)
  | Exception (msg : message)
  | OtherError (name : string).

(** [isinstance(e, urllib.error.HTTPError)] *)
Definition is_HTTPError (e : exn) : bool :=
  match e with HTTPError _ => true | _ => false end.

(** [isinstance(e, urllib.error.URLError)] *)
Definition is_URLError (e : exn) : bool :=
  match e with HTTPError _ | URLError _ => true | _ => false end.

(** [isinstance(e, IOError)] *)
Definition is_IOError (e : exn) : bool :=
  match e with HTTPError _ | URLError _ | OSError _ => true | _ => false end.

(** [isinstance(e, json.JSONDecodeError)] *)
Definition is_JSONDecodeError (e : exn) : bool :=
  match e with JSONDecodeError => true | _ => false end.

(** ** JSON values, as [json.loads] returns them

    An object is the parsed [dict], given as its items; [dict_lookup] reads
    the first item with the key. *)

#[local] Set Warnings "-register-all".

Inductive json :=
  | JNull
  | JBool (b : bool)
  | JNum (literal : string)
  | JStr (s : string)
  | JArr (items : list json)
  | JObj (fields : list (string * json)).

(** ** Observable events *)

Inductive level := INFO | WARNING | ERROR.

Inductive record :=
  | LogFetchedHash (filename prefix16 : string)             (* line 30 *)
  | LogNoValidDigest (filename digest : string)             (* line 32 *)
  | LogNoRpmAssets                                          (* line 35 *)
  | LogAvailableAssets (names : list json)                  (* line 36 *)
  | LogFetchedCount (n : nat)                               (* line 38 *)
  | LogApiFetchFailed (e : exn)                             (* line 41 *)
  | LogApiParseFailed (e : exn)                             (* line 44 *)
  | LogApiUnexpected (e : exn)                              (* line 47 *)
  | LogHashFailed (path : string) (e : exn)                 (* line 62 *)
  | LogCompletedRange (range_start range_end : Z)           (* line 82 *)
  | LogChunkHTTPError (range_start range_end : Z) (e : exn) (* line 84 *)
  | LogChunkURLError (range_start range_end : Z) (e : exn)  (* line 86 *)
  | LogChunkFileError (range_start range_end : Z) (e : exn) (* line 88 *)
  | LogChunkUnexpected (range_start range_end : Z) (e : exn)(* line 90 *)
  | LogTotalSize (n : Z)                                    (* line 98 *)
  | LogDownloadCompleted                                    (* line 121 *)
  | LogDlHTTPError (e : exn)                                (* line 135 *)
  | LogDlURLError (e : exn)                                 (* line 138 *)
  | LogDlFileError (e : exn)                                (* line 141 *)
  | LogDlUnexpected (e : exn)                               (* line 144 *)
  | LogCopying (name : string)                              (* lines 164, 167 *)
  | LogFinishedCopying (name : string).                     (* lines 166, 169 *)

Inductive printed :=
  | PrintDownloaded (path : string)                         (* line 120 *)
  | PrintHashVerified (filename hash : string)              (* line 132 *)
  | PrintAllDone.                                           (* line 175 *)

Inductive event :=
  | EvUrlopen (url : string) (range : option (Z * Z))
  | EvMakedirs (path : string)
  | EvOpenWrite (path : string)
  | EvTruncate (path : string) (size : Z)
  | EvWrite (path : string) (offset : Z) (data : bytes)
  | EvRemove (path : string)
  | EvCopyfile (src dst : string)
  | EvSystem (command : string)
  | EvLog (lvl : level) (r : record)
  | EvPrint (p : printed).

(** ** The world: file system and event trace (oldest event first) *)

Record world := World {
  files : gmap string bytes;
  dirs : gset string;
  trace : list event }.

(** ** The environment: what the servers answer and how threads are
    scheduled *)

(** The answer to the metadata request: [urlopen] raises, or the body is
    not JSON, or it parses to a value. *)
Inductive api_response :=
  | ApiUnreachable (e : exn)
  | ApiMalformed
  | ApiJSON (j : json).

(** The [Content-Length] header of a response: absent, a decimal integer,
    or text that [int()] rejects. *)
Inductive header :=
  | HdrAbsent
  | HdrInt (n : Z)
  | HdrNotInt (raw : string).

(** The answer to the un-ranged request of line 94. *)
Inductive probe :=
  | ProbeFail (e : exn)
  | ProbeOk (content_length : header).

(** The answer to a ranged request: [urlopen] raises, or a body arrives as
    a sequence of segments, after which the stream ends normally or
    [read] raises [broken]. *)
Inductive range_response :=
  | RangeFail (e : exn)
  | RangeBody (segments : list bytes) (broken : option exn).

Record environment := Environment {
  api_of : string → api_response;
  probe_of : string → probe;
  ranged : string → Z → Z → range_response;
  (** the order in which the pool's threads take their steps while
      [url] is downloaded *)
  schedule : string → list nat }.

(** ** State and exception monad *)

Inductive result (A : Type) :=
  | Ok (a : A)
  | Raise (e : exn).
Arguments Ok {A} a.
Arguments Raise {A} e.

Definition M (A : Type) : Type := world → result A * world.

Definition ret {A} (a : A) : M A := λ w, (Ok a, w).

Definition bind {A B} (m : M A) (k : A → M B) : M B :=
  λ w, match m w with
       | (Ok a, w') => k a w'
       | (Raise e, w') => (Raise e, w')
       end.

Definition raise {A} (e : exn) : M A := λ w, (Raise e, w).

(** [try: body / except Exception as e: handler e] *)
Definition try_except {A} (body : M A) (handler : exn → M A) : M A :=
  λ w, match body w with
       | (Ok a, w') => (Ok a, w')
       | (Raise e, w') => handler e w'
       end.

Notation "x ←' m ;; k" := (bind m (λ x, k))
  (at level 100, m at next level, k at level 200, right associativity,
   format "x  ←'  m ;;  '/' k").
Notation "m ;;' k" := (bind m (λ _, k))
  (at level 100, k at level 200, right associativity,
   format "m ;;'  '/' k").

Definition emit (ev : event) : M unit :=
  λ w, (Ok tt, World (files w) (dirs w) (trace w ++ [ev])).

Definition log (lvl : level) (r : record) : M unit := emit (EvLog lvl r).

Definition print (p : printed) : M unit := emit (EvPrint p).

Definition get_world : M world := λ w, (Ok w, w).

Definition set_files (fs : gmap string bytes) : M unit :=
  λ w, (Ok tt, World fs (dirs w) (trace w)).

Definition set_dirs (ds : gset string) : M unit :=
  λ w, (Ok tt, World (files w) ds (trace w)).

(** Sequential [for x in l: body x]. *)
Fixpoint for_each {A} (l : list A) (body : A → M unit) : M unit :=
  match l with
  | [] => ret tt
  | x :: l' => body x ;;' for_each l' body
  end.

(** ** File system operations

    Paths are compared as strings.  The root directory always exists. *)

Definition isdir (w : world) (p : string) : bool :=
  bool_decide (p = "/"%string ∨ p ∈ dirs w).

Definition isfile (w : world) (p : string) : bool :=
  bool_decide (p ∈ dom (files w)).

(** [os.path.exists(p)] *)
Definition path_exists (p : string) : M bool :=
  λ w, (Ok (isfile w p || isdir w p), w).

(** [os.remove(p)] *)
Definition os_remove (p : string) : M unit :=
  emit (EvRemove p) ;;'
  w ←' get_world ;;
  if isfile w p then set_files (delete p (files w))
  else raise (OSError "remove").

(** [os.makedirs(p, exist_ok=...)] *)
Definition os_makedirs (p : string) (exist_ok : bool) : M unit :=
  emit (EvMakedirs p) ;;'
  w ←' get_world ;;
  if bool_decide (p = ""%string) then raise (OSError "makedirs: empty path")
  else if isfile w p then raise (OSError "makedirs: file exists")
  else if isdir w p then
    (if exist_ok then ret tt else raise (OSError "makedirs: file exists"))
  else if existsb (isfile w) (ancestors p) then
    raise (OSError "makedirs: not a directory")
  else set_dirs (dirs w ∪ {[p]} ∪ list_to_set (ancestors p)).

(** [open(p, 'wb')]: the file is created or emptied. *)
Definition open_write (p : string) : M unit :=
  emit (EvOpenWrite p) ;;'
  w ←' get_world ;;
  if isdir w p then raise (OSError "open: is a directory")
  else if bool_decide (dirname p = ""%string) || isdir w (dirname p) then
    set_files (<[p := []]> (files w))
  else raise (OSError "open: no such directory").

(** [file.truncate(size)] on the file just opened with [open_write]. *)
Definition truncate (p : string) (size : Z) : M unit :=
  emit (EvTruncate p size) ;;'
  w ←' get_world ;;
  if bool_decide (size < 0) then raise (OSError "truncate: invalid argument")
  else set_files (<[p := zeros (Z.to_nat size)]> (files w)).

(** [open(p, 'r+b')], [seek(offset)], [write(data)], close. *)
Definition write_file_at (p : string) (offset : Z) (data : bytes) : M unit :=
  w ←' get_world ;;
  match files w !! p with
  | None => raise (OSError "open: no such file")
  | Some content =>
      if bool_decide (offset < 0) then raise (OSError "seek: invalid argument")
      else
        emit (EvWrite p offset data) ;;'
        set_files (<[p := write_at content (Z.to_nat offset) data]> (files w))
  end.

(** [shutil.copyfile(src, dst)]: [dst] must name a file. *)
Definition copyfile (src dst : string) : M unit :=
  emit (EvCopyfile src dst) ;;'
  w ←' get_world ;;
  match files w !! src with
  | None => raise (OSError "copyfile: no such file")
  | Some content =>
      if isdir w dst then raise (OSError "copyfile: is a directory")
      else set_files (<[dst := content]> (files w))
  end.

(** [os.system(command)] *)
Definition os_system (command : string) : M unit := emit (EvSystem command).

(** ** Python operations on JSON values *)

(** [d[key]] on the items of a dict. *)
Fixpoint dict_lookup (fields : list (string * json)) (key : string)
  : option json :=
  match fields with
  | [] => None
  | (k, v) :: rest => if bool_decide (k = key) then Some v
                      else dict_lookup rest key
  end.

(** [v.get(key, default)]: only a dict has [get]. *)
Definition py_get (v : json) (key : string) (dflt : json) : M json :=
  match v with
  | JObj fields => ret (default dflt (dict_lookup fields key))
  | _ => raise AttributeError
  end.

(** [v[key]]: a missing key of a dict is a [KeyError]; the other values
    reject a string subscript. *)
Definition py_getitem (v : json) (key : string) : M json :=
  match v with
  | JObj fields =>
      match dict_lookup fields key with
      | Some x => ret x
      | None => raise (KeyError key)
      end
  | _ => raise TypeError
  end.

(** [iter(v)]: a list yields its items, a dict its keys, a str its
    characters; the other values are not iterable. *)
Definition py_iter (v : json) : M (list json) :=
  match v with
  | JArr items => ret items
  | JObj fields => ret ((λ kv, JStr kv.1) <$> fields)
  | JStr s => ret ((λ c, JStr (of_chars [c])) <$> chars s)
  | _ => raise TypeError
  end.

(** [v.endswith(suffix)]: only a str has [endswith]. *)
Definition py_endswith (v : json) (suffix : string) : M bool :=
  match v with
  | JStr s => ret (str_endswith s suffix)
  | _ => raise AttributeError
  end.

(** [v.startswith(prefix)] *)
Definition py_startswith (v : json) (prefix : string) : M bool :=
  match v with
  | JStr s => ret (str_startswith s prefix)
  | _ => raise AttributeError
  end.

(** The str behind a value already known to be one. *)
Definition as_str (v : json) : string :=
  match v with JStr s => s | _ => ""%string end.

(** ** get_expected_hashes_from_api (lines 15-48) *)

(** Line 17. *)
Definition api_url (repo_owner repo_name release_tag : string) : string :=
  ("https://api.github.com/repos/" ++ repo_owner ++ "/" ++ repo_name
   ++ "/releases/tags/" ++ release_tag)%string.

(** Lines 19-20: the request and [json.loads]. *)
Definition fetch_release_info (env : environment) (url : string) : M json :=
  emit (EvUrlopen url None) ;;'
  match api_of env url with
  | ApiUnreachable e => raise e
  | ApiMalformed => raise JSONDecodeError
  | ApiJSON j => ret j
  end.

(** Lines 24-32: the body of the loop, for one asset. *)
Definition collect_asset (asset : json) (expected_hashes : gmap string string)
  : M (gmap string string) :=
  filename ←' py_get asset "name" (JStr "") ;;
  is_rpm ←' py_endswith filename ".rpm" ;;
  if is_rpm then
    digest ←' py_get asset "digest" (JStr "") ;;
    is_sha ←' py_startswith digest "sha256:" ;;
    if is_sha then
      let hash_value := str_lower (str_from 7 (as_str digest)) in
      log INFO (LogFetchedHash (as_str filename) (str_upto 16 hash_value)) ;;'
      ret (<[as_str filename := hash_value]> expected_hashes)
    else
      log WARNING (LogNoValidDigest (as_str filename) (as_str digest)) ;;'
      ret expected_hashes
  else ret expected_hashes.

(** Lines 23-32: the loop. *)
Fixpoint collect_assets (assets : list json)
    (expected_hashes : gmap string string) : M (gmap string string) :=
  match assets with
  | [] => ret expected_hashes
  | asset :: rest =>
      expected_hashes' ←' collect_asset asset expected_hashes ;;
      collect_assets rest expected_hashes'
  end.

(** Line 36: [[a['name'] for a in ...]]. *)
Fixpoint asset_names (assets : list json) : M (list json) :=
  match assets with
  | [] => ret []
  | a :: rest =>
      n ←' py_getitem a "name" ;;
      ns ←' asset_names rest ;;
      ret (n :: ns)
  end.

(** Lines 19-39: the body of the [try]. *)
Definition get_expected_hashes_body (env : environment) (url : string)
  : M (gmap string string) :=
  release_info ←' fetch_release_info env url ;;
  assets_value ←' py_get release_info "assets" (JArr []) ;;
  assets ←' py_iter assets_value ;;
  expected_hashes ←' collect_assets assets ∅ ;;
  (if bool_decide (expected_hashes = ∅) then
     log WARNING LogNoRpmAssets ;;'
     names ←' asset_names assets ;;
     log INFO (LogAvailableAssets names)
   else
     log INFO (LogFetchedCount (size expected_hashes))) ;;'
  ret expected_hashes.

(** Lines 40-48: each handler logs and re-raises. *)
Definition api_handler (e : exn) : M (gmap string string) :=
  (if is_URLError e then log ERROR (LogApiFetchFailed e)
   else if is_JSONDecodeError e then log ERROR (LogApiParseFailed e)
   else log ERROR (LogApiUnexpected e)) ;;'
  raise e.

Definition get_expected_hashes_from_api (env : environment)
    (repo_owner repo_name release_tag : string) : M (gmap string string) :=
  try_except
    (get_expected_hashes_body env (api_url repo_owner repo_name release_tag))
    api_handler.

(** ** compute_sha256 (lines 50-63)

    The file is read in 8192-byte pieces, each fed to [sha256.update]; the
    digest is that of the whole content.  A file that cannot be opened is
    logged and yields [None]. *)
Definition compute_sha256 (file_path : string) : M (option string) :=
  w ←' get_world ;;
  match files w !! file_path with
  | Some content => ret (Some (str_lower (hexdigest (sha256 content))))
  | None =>
      log ERROR (LogHashFailed file_path (OSError "open: no such file")) ;;'
      ret None
  end.

(** ** download_chunk (lines 65-90) *)

(** Line 71. *)
Definition chunk_size : Z := 8192.

(** [response.read(amt)]: at most [amt] bytes of what has arrived, the
    rest staying in the stream; [b''] only at the end of the stream. *)
Fixpoint response_read (amt : Z) (segments : list bytes)
  : bytes * list bytes :=
  match segments with
  | [] => ([], [])
  | [] :: rest => response_read amt rest
  | seg :: rest =>
      (take (Z.to_nat amt) seg,
       match drop (Z.to_nat amt) seg with
       | [] => rest
       | more => more :: rest
       end)
  end.

(** The arguments of one [download_chunk] call. *)
Record task := Task {
  t_url : string;
  t_path : string;
  t_start : Z;
  t_end : Z }.

(** Where a call of [download_chunk] stands: before its request, inside
    the read loop (with what the response still holds and the value of
    [downloaded]), or returned. *)
Inductive fetcher :=
  | Pending
  | Reading (segments : list bytes) (broken : option exn) (downloaded : Z)
  | Finished.

(** Lines 83-90: the first handler whose class matches logs the error;
    nothing is raised again and nothing is returned. *)
Definition chunk_handler (t : task) (e : exn) : M fetcher :=
  (if is_HTTPError e then
     log ERROR (LogChunkHTTPError (t_start t) (t_end t) e)
   else if is_URLError e then
     log ERROR (LogChunkURLError (t_start t) (t_end t) e)
   else if is_IOError e then
     log ERROR (LogChunkFileError (t_start t) (t_end t) e)
   else
     log ERROR (LogChunkUnexpected (t_start t) (t_end t) e)) ;;'
  ret Finished.

(** Lines 67-69: the ranged request. *)
Definition open_range (env : environment) (t : task) : M fetcher :=
  emit (EvUrlopen (t_url t) (Some (t_start t, t_end t))) ;;'
  match ranged env (t_url t) (t_start t) (t_end t) with
  | RangeFail e => raise e
  | RangeBody segments broken => ret (Reading segments broken 0)
  end.

(** Lines 73-82: one turn of the loop.  The write of lines 77-81 happens
    under the lock, so a turn is atomic with respect to the other
    threads. *)
Definition read_turn (t : task) (segments : list bytes)
    (broken : option exn) (downloaded : Z) : M fetcher :=
  let '(chunk, segments') := response_read chunk_size segments in
  match chunk with
  | [] =>
      match broken with
      | Some e => raise e
      | None =>
          log INFO (LogCompletedRange (t_start t) (t_end t)) ;;'
          ret Finished
      end
  | _ =>
      let downloaded' := downloaded + Z.of_nat (length chunk) in
      write_file_at (t_path t)
        (t_start t + downloaded' - Z.of_nat (length chunk)) chunk ;;'
      ret (Reading segments' broken downloaded')
  end.

(** One step of a [download_chunk] call. *)
Definition chunk_step (env : environment) (t : task) (f : fetcher)
  : M fetcher :=
  match f with
  | Pending => try_except (open_range env t) (chunk_handler t)
  | Reading segments broken downloaded =>
      try_except (read_turn t segments broken downloaded) (chunk_handler t)
  | Finished => ret Finished
  end.

(** [fuel] steps of a call, or fewer if it returns earlier. *)
Fixpoint run_fetcher (env : environment) (t : task) (fuel : nat)
    (f : fetcher) : M fetcher :=
  match fuel with
  | O => ret f
  | S k =>
      match f with
      | Finished => ret Finished
      | _ => f' ←' chunk_step env t f ;; run_fetcher env t k f'
      end
  end.

Definition stream_bytes (segments : list bytes) : nat :=
  sum_list (length <$> segments).

(** A number of steps within which the call returns. *)
Definition steps_bound (env : environment) (t : task) (f : fetcher) : nat :=
  match f with
  | Pending =>
      match ranged env (t_url t) (t_start t) (t_end t) with
      | RangeFail _ => 1
      | RangeBody segments _ => 2 + stream_bytes segments
      end
  | Reading segments _ _ => 1 + stream_bytes segments
  | Finished => 0
  end.

(** A call running to its return. *)
Definition finish (env : environment) (t : task) (f : fetcher) : M fetcher :=
  run_fetcher env t (steps_bound env t f) f.

(** [download_chunk(url, save_path, start, end, ...)] run on its own;
    [total_size], the progress bar and the lock do not influence it. *)
Definition download_chunk (env : environment) (url save_path : string)
    (start end_ : Z) : M unit :=
  finish env (Task url save_path start end_) Pending ;;' ret tt.

(** ** download_file (lines 92-145) *)

(** Lines 94-97. *)
Definition size_discovery (env : environment) (url : string) : M Z :=
  emit (EvUrlopen url None) ;;'
  match probe_of env url with
  | ProbeFail e => raise e
  | ProbeOk content_length =>
      total_size ←' match content_length with
                    | HdrAbsent => ret 0
                    | HdrInt n => ret n
                    | HdrNotInt raw => raise (ValueError (MsgInvalidLiteral raw))
                    end ;;
      if bool_decide (total_size = 0) then raise (ValueError MsgNoSize)
      else ret total_size
  end.

(** Lines 100-102. *)
Definition allocate (save_path : string) (total_size : Z) : M unit :=
  os_makedirs (dirname save_path) true ;;'
  open_write save_path ;;'
  truncate save_path total_size.

(** The pool: the threads take steps in the order the schedule gives. *)
Fixpoint run_schedule (env : environment) (sched : list nat)
    (pool : list (task * fetcher)) : M (list (task * fetcher)) :=
  match sched with
  | [] => ret pool
  | i :: rest =>
      match pool !! i with
      | Some (t, f) =>
          f' ←' chunk_step env t f ;;
          run_schedule env rest (<[i := (t, f')]> pool)
      | None => run_schedule env rest pool
      end
  end.

(** Lines 115-116 and the end of the [with] block: every call is waited
    for. *)
Fixpoint join_all (env : environment) (pool : list (task * fetcher))
  : M unit :=
  match pool with
  | [] => ret tt
  | (t, f) :: rest => finish env t f ;;' join_all env rest
  end.

(** Lines 107-116. *)
Definition fetch_all (env : environment) (url save_path : string)
    (total_size num_threads : Z) : M unit :=
  if bool_decide (num_threads = 0) then raise ZeroDivisionError
  else
    let ranges := plan_ranges total_size num_threads in
    if bool_decide (num_threads ≤ 0) then raise (ValueError MsgMaxWorkers)
    else
      let pool := (λ r, (Task url save_path r.1 r.2, Pending)) <$> ranges in
      pool' ←' run_schedule env (schedule env url) pool ;;
      join_all env pool'.

(** Lines 123-132. *)
Definition verify (save_path : string) (expected_hashes : gmap string string)
  : M unit :=
  let filename := basename save_path in
  match expected_hashes !! filename with
  | None =>
      raise (Exception (MsgNoExpectedHash filename (dom expected_hashes)))
  | Some expected_hash =>
      computed ←' compute_sha256 save_path ;;
      match computed with
      | None => raise (Exception (MsgHashFailed save_path))
      | Some computed_hash =>
          if bool_decide (computed_hash ≠ expected_hash) then
            raise (Exception
                     (MsgHashMismatch save_path expected_hash computed_hash))
          else print (PrintHashVerified filename computed_hash)
      end
  end.

(** Lines 94-121: size discovery, allocation and the fetchers. *)
Definition download_phase (env : environment) (url save_path : string)
    (num_threads : Z) : M unit :=
  total_size ←' size_discovery env url ;;
  log INFO (LogTotalSize total_size) ;;'
  allocate save_path total_size ;;'
  fetch_all env url save_path total_size num_threads ;;'
  print (PrintDownloaded save_path) ;;'
  log INFO LogDownloadCompleted.

(** Lines 94-132: the body of the [try]. *)
Definition download_file_body (env : environment) (url save_path : string)
    (expected_hashes : gmap string string) (num_threads : Z) : M unit :=
  download_phase env url save_path num_threads ;;'
  verify save_path expected_hashes.

(** Lines 134-145: each handler logs and re-raises. *)
Definition download_handler (e : exn) : M unit :=
  (if is_HTTPError e then log ERROR (LogDlHTTPError e)
   else if is_URLError e then log ERROR (LogDlURLError e)
   else if is_IOError e then log ERROR (LogDlFileError e)
   else log ERROR (LogDlUnexpected e)) ;;'
  raise e.

Definition download_file (env : environment) (url save_path : string)
    (expected_hashes : gmap string string) (num_threads : Z) : M unit :=
  try_except (download_file_body env url save_path expected_hashes num_threads)
             download_handler.

(** ** The script (lines 147-175) *)

Definition repo_owner : string := "Reyher-VDI".
Definition repo_name : string := "Citrix-RPM-Repository".
Definition release_tag : string := "TEST".

Definition ctxusb_url : string :=
  "https://github.com/Reyher-VDI/Citrix-RPM-Repository/releases/download/TEST/ctxusb.rpm".
Definition ctxusb_path : string := "/temp/packages/ctxusb.rpm".
Definition icaclient_url : string :=
  "https://github.com/Reyher-VDI/Citrix-RPM-Repository/releases/download/TEST/ICAClient.rpm".
Definition icaclient_path : string := "/temp/packages/ICAClient.rpm".
Definition repo_dir : string := "/var/local/citrix-repo".

(** The artifacts of lines 159-160, as (url, save_path). *)
Definition artifacts : list (string * string) :=
  [(ctxusb_url, ctxusb_path); (icaclient_url, icaclient_path)].

(** [download_file] called on each artifact in turn, with the default
    [num_threads=4]; nothing catches what a call raises. *)
Definition download_batch (env : environment)
    (batch : list (string * string)) (expected_hashes : gmap string string)
  : M unit :=
  for_each batch (λ a, download_file env a.1 a.2 expected_hashes 4).

(** Lines 155-157. *)
Definition remove_old (rpm_file : string) : M unit :=
  present ←' path_exists rpm_file ;;
  if present then os_remove rpm_file else ret tt.

(** Lines 162-173: placement and indexing. *)
Definition place_and_index : M unit :=
  os_makedirs repo_dir false ;;'
  log INFO (LogCopying "ctxusb.rpm") ;;'
  copyfile ctxusb_path repo_dir ;;'
  log INFO (LogFinishedCopying "ICAClient.rpm") ;;'
  log INFO (LogCopying "ICAClient.rpm") ;;'
  copyfile icaclient_path repo_dir ;;'
  log INFO (LogFinishedCopying "ICAClient.rpm") ;;'
  os_system "createrepo_c /var/local/citrix-repo" ;;'
  copyfile "./local-citrix-repo.repo" "/etc/yum.repos.d/".

Definition main (env : environment) : M unit :=
  expected_hashes ←'
    get_expected_hashes_from_api env repo_owner repo_name release_tag ;;
  if bool_decide (expected_hashes = ∅) then raise (Exception MsgAutoFetchFailed)
  else
    for_each [ctxusb_path; icaclient_path] remove_old ;;'
    download_batch env artifacts expected_hashes ;;'
    place_and_index ;;'
    print PrintAllDone.

(** ** Vocabulary of the statements *)

(** [m] relates every world it starts from to the world it leaves. *)
Definition steps {A} (R : world → world → Prop) (m : M A) : Prop :=
  ∀ w r w', m w = (r, w') → R w w'.

(** [w'] extends the trace of [w] by events satisfying [P]. *)
Definition extends (P : event → Prop) (w w' : world) : Prop :=
  ∃ evs, trace w' = trace w ++ evs ∧ Forall P evs.

(** As [extends], with the files and directories untouched. *)
Definition observes (P : event → Prop) (w w' : world) : Prop :=
  files w' = files w ∧ dirs w' = dirs w ∧ extends P w w'.

Definition is_log (ev : event) : Prop :=
  match ev with EvLog _ _ => True | _ => False end.

(** A ranged GET: the start of a chunk fetcher. *)
Definition is_ranged_request (ev : event) : Prop :=
  match ev with EvUrlopen _ (Some _) => True | _ => False end.

(** The only events of the metadata step: its request and log records. *)
Definition is_metadata_event (url : string) (ev : event) : Prop :=
  ev = EvUrlopen url None ∨ is_log ev.

Definition is_verified_print (ev : event) : Prop :=
  match ev with EvPrint (PrintHashVerified _ _) => True | _ => False end.

(** Any event but the report of a verified hash. *)
Definition unverified (ev : event) : Prop := ¬ is_verified_print ev.

(** Any event but the start of a chunk fetcher. *)
Definition unfetched (ev : event) : Prop := ¬ is_ranged_request ev.

(** The str a [get(key, '')] on an asset yields, when it is one. *)
Definition asset_field (asset : json) (key : string) : option string :=
  match asset with
  | JObj fields =>
      match default (JStr "") (dict_lookup fields key) with
      | JStr s => Some s
      | _ => None
      end
  | _ => None
  end.

(** [asset] has file name [filename] ending in ['.rpm'] and digest field
    [digest] starting with ['sha256:']. *)
Definition qualifies (asset : json) (filename digest : string) : Prop :=
  asset_field asset "name" = Some filename
  ∧ str_endswith filename ".rpm" = true
  ∧ asset_field asset "digest" = Some digest
  ∧ str_startswith digest "sha256:" = true.

(** The digest value after the ['sha256:'] prefix, in lowercase. *)
Definition digest_value (digest : string) : string :=
  str_lower (str_from 7 digest).

(** The assets the loop of line 23 iterates over, for a response that
    parsed to [release_info]. *)
Definition assets_of (release_info : json) : option (list json) :=
  match release_info with
  | JObj fields =>
      match default (JArr []) (dict_lookup fields "assets") with
      | JArr items => Some items
      | JObj fs => Some ((λ kv, JStr kv.1) <$> fs)
      | JStr s => Some ((λ c, JStr (of_chars [c])) <$> chars s)
      | _ => None
      end
  | _ => None
  end.

(** The metadata step failed or produced no usable entry. *)
Definition metadata_unusable (r : result (gmap string string)) : Prop :=
  match r with
  | Raise _ => True
  | Ok expected_hashes => expected_hashes = ∅
  end.

Definition is_request (ev : event) : Prop :=
  match ev with EvUrlopen _ _ => True | _ => False end.

(** The positioned writes among [evs], in order, as (path, offset, data). *)
Definition writes_of (evs : list event) : list (string * Z * bytes) :=
  omap (λ ev, match ev with
              | EvWrite p offset data => Some (p, offset, data)
              | _ => None
              end) evs.

(** Writing [chunks] one after the other to [path], the first at
    [offset]. *)
Fixpoint layout (path : string) (offset : Z) (chunks : list bytes)
  : list (string * Z * bytes) :=
  match chunks with
  | [] => []
  | c :: cs =>
      (path, offset, c) :: layout path (offset + Z.of_nat (length c)) cs
  end.

(** A non-empty piece of at most 8192 bytes. *)
Definition increment_ok (data : bytes) : Prop :=
  0 < Z.of_nat (length data) ≤ 8192.

(** The bytes of [content] at offsets [offset .. offset + n - 1]. *)
Definition slice (content : bytes) (offset n : nat) : bytes :=
  take n (drop offset content).

(** What a run of the read loop of [download_chunk] leaves behind, started
    at file offset [offset] with [body] still to come: the events [evs] it
    added, made of the writes of [chunks] laid out from [offset]; and, when
    the range was logged as completed, the whole of [body] written behind
    the first [offset] bytes of the file. *)
Definition fetch_outcome (t : task) (offset : Z) (body : bytes)
    (broken : option exn) (w w' : world) (evs : list event)
    (chunks : list bytes) : Prop :=
  trace w' = trace w ++ evs
  ∧ dirs w' = dirs w
  ∧ writes_of evs = layout (t_path t) offset chunks
  ∧ Forall increment_ok chunks
  ∧ (∃ rest, body = mjoin chunks ++ rest)
  ∧ Forall (λ ev, ¬ is_request ev) evs
  ∧ (body = [] → files w' = files w)
  ∧ (EvLog INFO (LogCompletedRange (t_start t) (t_end t)) ∈ evs →
     broken = None
     ∧ mjoin chunks = body
     ∧ (body ≠ [] →
        0 ≤ offset
        ∧ ∃ c c', files w !! t_path t = Some c
                  ∧ files w' !! t_path t = Some c'
                  ∧ take (Z.to_nat offset + length body) c'
                    = take (Z.to_nat offset)
                        (c ++ zeros (Z.to_nat offset - length c)) ++ body)).

(** ** Concrete worlds and environments used by the examples *)

Definition empty_world : world := World ∅ ∅ [].

(** The JSON of one release asset. *)
Definition asset_json (name digest : string) : json :=
  JObj [("name"%string, JStr name); ("digest"%string, JStr digest)].

Definition release_json (assets : list json) : json :=
  JObj [("tag_name"%string, JStr "TEST"); ("assets"%string, JArr assets)].

(** An environment that answers the metadata request with [response] and
    in which no artifact can be reached. *)
Definition metadata_env (response : api_response) : environment :=
  Environment (λ _, response)
              (λ _, ProbeFail (URLError "unreachable"))
              (λ _ _ _, RangeFail (URLError "unreachable"))
              (λ _, []).

(** A release listing two assets under one file name. *)
Definition twin_assets : list json :=
  [asset_json "ctxusb.rpm" "sha256:AA11"; asset_json "ctxusb.rpm" "sha256:BB22"].

(** A release with two packages, a text file and a package whose digest is
    not SHA-256. *)
Definition mixed_assets : list json :=
  [asset_json "ctxusb.rpm" "sha256:0F0F";
   asset_json "notes.txt" "sha256:1234";
   asset_json "old.rpm" "md5:99";
   asset_json "ICAClient.rpm" "sha256:abCD"].

(** A server that honours ranges: the bytes [start .. end_] of [content],
    in one segment. *)
Definition serve (content : bytes) (start end_ : Z) : range_response :=
  RangeBody [slice content (Z.to_nat start) (Z.to_nat (end_ - start + 1))]
            None.

(** The two artifacts of the script served from [ctxusb] and [icaclient],
    except that the range [refused] of the first one is answered with
    HTTP 416; [sched] is the order in which the threads step. *)
Definition artifact_env (api : api_response) (ctxusb icaclient : bytes)
    (refused : Z * Z) (sched : list nat) : environment :=
  Environment
    (λ _, api)
    (λ url,
       if bool_decide (url = ctxusb_url) then
         ProbeOk (HdrInt (Z.of_nat (length ctxusb)))
       else if bool_decide (url = icaclient_url) then
         ProbeOk (HdrInt (Z.of_nat (length icaclient)))
       else ProbeFail (HTTPError 404))
    (λ url start end_,
       if bool_decide (url = ctxusb_url) then
         if bool_decide ((start, end_) = refused) then
           RangeFail (HTTPError 416)
         else serve ctxusb start end_
       else if bool_decide (url = icaclient_url) then
         serve icaclient start end_
       else RangeFail (HTTPError 404))
    (λ _, sched).

(** Eight bytes whose third and fourth are zero. *)
Definition gapped_content : bytes := [x01; x02; x00; x00; x05; x06; x07; x08].
Definition gapped_digest : string :=
  "dd532a7fa2b430c80cd83d22006c612c086873bc70454bc2c9d99999fb12aa8a".

(** Eight non-zero bytes. *)
Definition plain_content : bytes := [x01; x02; x03; x04; x05; x06; x07; x08].
Definition plain_digest : string :=
  "66840dda154e8a113c31dd0ad32f7f3a366a80e8136979d8f5a101d3d29d6f72".

(** The nine bytes of "ICAClient". *)
Definition ica_content : bytes :=
  [x49; x43; x41; x43; x6c; x69; x65; x6e; x74].
Definition ica_digest : string :=
  "8e3acd3f351545033ad7a3b7edea672aedc0454c3551281f1a85a127c224bbf7".

(** The release metadata for a first artifact with digest [ctxusb_digest]. *)
Definition release_of (ctxusb_digest : string) : api_response :=
  ApiJSON (release_json
             [asset_json "ctxusb.rpm" ("sha256:" ++ ctxusb_digest);
              asset_json "ICAClient.rpm" ("sha256:" ++ ica_digest)]).

Definition hashes_of (ctxusb_digest : string) : gmap string string :=
  {[ "ctxusb.rpm"%string := ctxusb_digest;
     "ICAClient.rpm"%string := ica_digest ]}.

(** An interleaving of the four threads. *)
Definition some_schedule : list nat := [0; 1; 2; 3; 3; 2; 1; 0; 2; 0]%nat.

(** All ranges are served. *)
Definition healthy_env : environment :=
  artifact_env (release_of plain_digest) plain_content ica_content
               (-1, -1) some_schedule.

(** The range 2-3 of the first artifact is refused; the true bytes there
    are zero. *)
Definition zero_gap_env : environment :=
  artifact_env (release_of gapped_digest) gapped_content ica_content
               (2, 3) some_schedule.

(** The range 2-3 of the first artifact is refused; the true bytes there
    are not zero. *)
Definition lost_range_env : environment :=
  artifact_env (release_of plain_digest) plain_content ica_content
               (2, 3) some_schedule.

(** A server that sends no [Content-Length]. *)
Definition sizeless_env : environment :=
  Environment (λ _, release_of plain_digest)
              (λ _, ProbeOk HdrAbsent)
              (λ _ start end_, serve plain_content start end_)
              (λ _, []).

(** ** Further vocabulary *)

(** The exception [download_file] raises when called without a worker:
    line 107 divides by zero, and a negative [max_workers] is refused by
    the executor. *)
Definition no_worker_error (num_threads : Z) : exn :=
  if bool_decide (num_threads = 0) then ZeroDivisionError
  else ValueError MsgMaxWorkers.

(** The world in which [download_file] allocates the destination, once
    size discovery has reported [total_size]. *)
Definition sized (url : string) (total_size : Z) (w : world) : world :=
  World (files w) (dirs w)
        (trace w ++ [EvUrlopen url None; EvLog INFO (LogTotalSize total_size)]).

(** The events a call of [download_file] for [url] and [save_path] may
    leave: requests to [url], the creation of the parent directory, the
    opening and truncation of the destination, writes into it, log records
    and the two reports of lines 120 and 132. *)
Definition transfer_event (url save_path : string) (ev : event) : Prop :=
  match ev with
  | EvUrlopen u _ => u = url
  | EvMakedirs d => d = dirname save_path
  | EvOpenWrite p | EvTruncate p _ | EvWrite p _ _ => p = save_path
  | EvLog _ _ => True
  | EvPrint (PrintDownloaded p) => p = save_path
  | EvPrint (PrintHashVerified _ _) => True
  | _ => False
  end.

(** From [w] to [w'] no file but [save_path] has changed, no directory has
    disappeared, and the events added are [transfer_event]s. *)
Definition touches_only (url save_path : string) (w w' : world) : Prop :=
  (∀ q, q ≠ save_path → files w' !! q = files w !! q)
  ∧ dirs w ⊆ dirs w'
  ∧ extends (transfer_event url save_path) w w'.

(** Every task of the pool is for [url] and [save_path]. *)
Definition pool_for (url save_path : string) (pool : list (task * fetcher))
  : Prop :=
  Forall (λ tf, t_url tf.1 = url ∧ t_path tf.1 = save_path) pool.

(** Any event but a shell command and the final report of line 175. *)
Definition before_indexing (ev : event) : Prop :=
  match ev with
  | EvSystem _ | EvPrint PrintAllDone => False
  | _ => True
  end.

(** The server answers every ranged request for [url] with the bytes of
    [content] at the offsets of the range, in segments of any sizes, and
    its streams do not break. *)
Definition honours_ranges (env : environment) (url : string)
    (content : bytes) : Prop :=
  ∀ start end_, 0 ≤ start →
    ∃ segments,
      ranged env url start end_ = RangeBody segments None
      ∧ mjoin segments
        = slice content (Z.to_nat start) (Z.to_nat (end_ + 1 - start)).

(** [c] holds the bytes of [content] at the offsets [a .. b - 1]. *)
Definition agree (content c : bytes) (a b : Z) : Prop :=
  ∀ k : nat, a ≤ Z.of_nat k < b → (k < length content)%nat →
             c !! k = content !! k.

(** From [c] to [c'] the length is kept and no byte of [content] already
    in place is lost. *)
Definition keeps (content c c' : bytes) : Prop :=
  length c' = length c
  ∧ ∀ k : nat, (k < length content)%nat →
               c !! k = content !! k → c' !! k = content !! k.

(** The fetcher [f] of task [t] is where a fetcher served from [content]
    should be, the file holding [c]: what it has still to read is the rest
    of its range, and what it has written is in place. *)
Definition on_track (content c : bytes) (t : task) (f : fetcher) : Prop :=
  0 ≤ t_start t
  ∧ match f with
    | Pending => True
    | Reading segments broken downloaded =>
        broken = None ∧ 0 ≤ downloaded
        ∧ mjoin segments
          = slice content (Z.to_nat (t_start t + downloaded))
                  (Z.to_nat (t_end t + 1 - (t_start t + downloaded)))
        ∧ agree content c (t_start t) (t_start t + downloaded)
    | Finished => agree content c (t_start t) (t_end t + 1)
    end.

(** Any event but an error record. *)
Definition quiet (ev : event) : Prop :=
  match ev with EvLog ERROR _ => False | _ => True end.

(** From [w] to [w'] the file [p] went from [c] to [c'], nothing else
    changed, and no error was logged. *)
Definition rewrites (p : string) (c c' : bytes) (w w' : world) : Prop :=
  files w !! p = Some c
  ∧ files w' = <[p := c']> (files w)
  ∧ dirs w' = dirs w
  ∧ extends quiet w w'.

(** Every fetcher of the pool is for [url] and [p] and on track. *)
Definition pool_on_track (url p : string) (content c : bytes)
    (pool : list (task * fetcher)) : Prop :=
  Forall (λ tf, t_url tf.1 = url ∧ t_path tf.1 = p
                ∧ on_track content c tf.1 tf.2) pool.

(** One of the sixteen characters [0-9a-f]. *)
Definition lower_hex (c : ascii) : Prop := c ∈ chars "0123456789abcdef".

(** A call of [shutil.copyfile]. *)
Definition is_copy (ev : event) : Prop :=
  match ev with EvCopyfile _ _ => True | _ => False end.
(** * Properties *)

(** ** The monad *)

Lemma bind_inv {A B} (m : M A) (k : A → M B) w r w' :
  bind m k w = (r, w') →
  (∃ a w1, m w = (Ok a, w1) ∧ k a w1 = (r, w'))
  ∨ (∃ e, m w = (Raise e, w') ∧ r = Raise e).
Proof.
  unfold bind. destruct (m w) as [[a|e] w1]; intros Heq.
  - left. eauto.
  - right. inversion Heq. eauto.
Qed.

Lemma bind_ok {A B} (m : M A) (k : A → M B) w a w1 :
  m w = (Ok a, w1) → bind m k w = k a w1.
Proof. unfold bind. by intros ->. Qed.

Lemma bind_raise {A B} (m : M A) (k : A → M B) w e w1 :
  m w = (Raise e, w1) → bind m k w = (Raise e, w1).
Proof. unfold bind. by intros ->. Qed.

Lemma try_except_inv {A} (body : M A) handler w r w' :
  try_except body handler w = (r, w') →
  (∃ a, body w = (Ok a, w') ∧ r = Ok a)
  ∨ (∃ e w1, body w = (Raise e, w1) ∧ handler e w1 = (r, w')).
Proof.
  unfold try_except. destruct (body w) as [[a|e] w1]; intros Heq.
  - left. inversion Heq. eauto.
  - right. eauto.
Qed.

Section steps.
Context (R : world → world → Prop).
Context (R_refl : ∀ w, R w w).
Context (R_trans : ∀ w1 w2 w3, R w1 w2 → R w2 w3 → R w1 w3).

Lemma steps_ret {A} (a : A) : steps R (ret a).
Proof using R_refl. intros w r w' [= _ <-]. apply R_refl. Qed.

Lemma steps_raise {A} e : steps R (@raise A e).
Proof using R_refl. intros w r w' [= _ <-]. apply R_refl. Qed.

Lemma steps_get_world : steps R get_world.
Proof using R_refl. intros w r w' [= _ <-]. apply R_refl. Qed.

Lemma steps_bind {A B} (m : M A) (k : A → M B) :
  steps R m → (∀ a, steps R (k a)) → steps R (bind m k).
Proof using R_trans.
  intros Hm Hk w r w' [(a & w1 & H1 & H2)|(e & H1 & _)]%bind_inv.
  - eapply R_trans; [by eapply Hm|by eapply Hk].
  - by eapply Hm.
Qed.

Lemma steps_try_except {A} (body : M A) handler :
  steps R body → (∀ e, steps R (handler e)) →
  steps R (try_except body handler).
Proof using R_trans.
  intros Hb Hh w r w' [(a & H1 & _)|(e & w1 & H1 & H2)]%try_except_inv.
  - by eapply Hb.
  - eapply R_trans; [by eapply Hb|by eapply Hh].
Qed.

Lemma steps_for_each {A} (l : list A) (body : A → M unit) :
  (∀ x, steps R (body x)) → steps R (for_each l body).
Proof using R_refl R_trans.
  intros Hb. induction l as [|x l IH]; simpl.
  - apply steps_ret.
  - apply steps_bind; [apply Hb|done].
Qed.
End steps.

Lemma extends_refl P w : extends P w w.
Proof. exists []. by rewrite app_nil_r. Qed.

Lemma extends_trans P w1 w2 w3 :
  extends P w1 w2 → extends P w2 w3 → extends P w1 w3.
Proof.
  intros (e1 & H1 & F1) (e2 & H2 & F2). exists (e1 ++ e2).
  rewrite H2, H1, app_assoc. split; [done|]. by apply Forall_app.
Qed.

Lemma extends_weaken (P Q : event → Prop) w w' :
  (∀ ev, P ev → Q ev) → extends P w w' → extends Q w w'.
Proof.
  intros HPQ (evs & H & F). exists evs. split; [done|].
  eapply Forall_impl; eauto.
Qed.

Lemma observes_refl P w : observes P w w.
Proof. repeat split. apply extends_refl. Qed.

Lemma observes_trans P w1 w2 w3 :
  observes P w1 w2 → observes P w2 w3 → observes P w1 w3.
Proof.
  intros (Hf1 & Hd1 & He1) (Hf2 & Hd2 & He2).
  split; [congruence|]. split; [congruence|]. by eapply extends_trans.
Qed.

Lemma observes_extends P w w' : observes P w w' → extends P w w'.
Proof. by intros (_ & _ & H). Qed.

Lemma emit_extends (P : event → Prop) ev : P ev → steps (extends P) (emit ev).
Proof.
  intros HP w r w' [= _ <-]. exists [ev]. simpl. split; [done|].
  by constructor.
Qed.

Lemma emit_observes (P : event → Prop) ev :
  P ev → steps (observes P) (emit ev).
Proof.
  intros HP w r w' Heq. split; [|split].
  - by inversion Heq.
  - by inversion Heq.
  - by eapply emit_extends.
Qed.

Lemma set_files_extends P fs : steps (extends P) (set_files fs).
Proof. intros w r w' [= _ <-]. exists []. by rewrite app_nil_r. Qed.

Lemma set_dirs_extends P ds : steps (extends P) (set_dirs ds).
Proof. intros w r w' [= _ <-]. exists []. by rewrite app_nil_r. Qed.

(** Tactics for [steps] goals: try the lemma tactic [leaf] at every node,
    else split binds, conditionals and matches and close the leaves with
    the lemmas above. *)
Ltac steps_extends_with leaf :=
  repeat first
    [ leaf
    | apply steps_ret; [apply extends_refl]
    | apply steps_raise; [apply extends_refl]
    | apply steps_get_world; [apply extends_refl]
    | apply set_files_extends
    | apply set_dirs_extends
    | apply emit_extends; simpl; first [by eauto | tauto]
    | apply steps_bind; [apply extends_trans| |intros ?]
    | apply steps_try_except; [apply extends_trans| |intros ?]
    | match goal with
      | |- steps _ (if ?b then _ else _) => destruct b
      | |- steps _ (match ?x with _ => _ end) => destruct x
      | |- steps _ (let '(_, _) := ?x in _) => destruct x
      end ].

Ltac steps_extends := steps_extends_with fail.

Ltac steps_observes_with leaf :=
  repeat first
    [ leaf
    | apply steps_ret; [apply observes_refl]
    | apply steps_raise; [apply observes_refl]
    | apply steps_get_world; [apply observes_refl]
    | apply emit_observes; simpl; by eauto
    | apply steps_bind; [apply observes_trans| |intros ?]
    | apply steps_try_except; [apply observes_trans| |intros ?]
    | match goal with
      | |- steps _ (if ?b then _ else _) => destruct b
      | |- steps _ (match ?x with _ => _ end) => destruct x
      end ].

Ltac steps_observes := steps_observes_with fail.


(** ** The range planner *)

Lemma py_range_length n : length (py_range n) = Z.to_nat n.
Proof. unfold py_range. by rewrite length_fmap, length_seq. Qed.

Lemma py_range_lookup n (i : nat) :
  (i < Z.to_nat n)%nat → py_range n !! i = Some (Z.of_nat i).
Proof.
  intros Hi. unfold py_range.
  rewrite list_lookup_fmap, lookup_seq_lt by done. done.
Qed.

Lemma plan_ranges_length total n : length (plan_ranges total n) = Z.to_nat n.
Proof. unfold plan_ranges. by rewrite length_fmap, py_range_length. Qed.

Lemma plan_ranges_lookup total n (i : nat) :
  (i < Z.to_nat n)%nat →
  plan_ranges total n !! i
  = Some (range_entry total n (total `div` n) (Z.of_nat i)).
Proof.
  intros Hi. unfold plan_ranges.
  by rewrite list_lookup_fmap, py_range_lookup.
Qed.

Lemma plan_ranges_lookup_inv total n (i : nat) r :
  plan_ranges total n !! i = Some r →
  (i < Z.to_nat n)%nat ∧ r = range_entry total n (total `div` n) (Z.of_nat i).
Proof.
  intros Hr. assert (Hi : (i < Z.to_nat n)%nat).
  { apply lookup_lt_Some in Hr. by rewrite plan_ranges_length in Hr. }
  split; [done|]. rewrite plan_ranges_lookup in Hr by done. congruence.
Qed.

Lemma range_entry_fst total n c i : (range_entry total n c i).1 = i * c.
Proof. done. Qed.

Lemma range_entry_snd_inner total n c i :
  i < n - 1 → (range_entry total n c i).2 = (i + 1) * c - 1.
Proof. intros. unfold range_entry. by rewrite bool_decide_eq_true_2. Qed.

Lemma range_entry_snd_last total n c i :
  ¬ i < n - 1 → (range_entry total n c i).2 = total - 1.
Proof. intros. unfold range_entry. by rewrite bool_decide_eq_false_2. Qed.

(** [n * (total // n) <= total], the fact that lets the last range absorb
    the remainder. *)
Lemma chunks_fit total n : 0 ≤ total → 0 < n → n * (total `div` n) ≤ total.
Proof. intros. apply Z.mul_div_le. lia. Qed.

Lemma chunk_nonneg total n : 0 ≤ total → 0 < n → 0 ≤ total `div` n.
Proof. intros. apply Z.div_pos; lia. Qed.

Lemma chunk_pos total n : 0 < n ≤ total → 1 ≤ total `div` n.
Proof.
  intros. assert (n * 1 ≤ total) as Hle by lia.
  apply Z.div_le_lower_bound in Hle; lia.
Qed.

Lemma chunk_zero total n : 0 ≤ total < n → total `div` n = 0.
Proof. intros. by apply Z.div_small. Qed.

(** Two ranges at different positions never share an offset. *)
Lemma plan_ranges_disjoint total n (i j : nat) r r' x :
  0 ≤ total → 0 < n → i ≠ j →
  plan_ranges total n !! i = Some r → plan_ranges total n !! j = Some r' →
  in_range r x → ¬ in_range r' x.
Proof.
  intros Ht Hn.
  assert (Hc := chunk_nonneg total n Ht Hn).
  assert (Hfit := chunks_fit total n Ht Hn).
  revert i j r r'.
  assert (Hlt : ∀ (i j : nat) r r', (i < j)%nat →
    plan_ranges total n !! i = Some r → plan_ranges total n !! j = Some r' →
    r.2 < r'.1).
  { intros i j r r' Hij [Hi ->]%plan_ranges_lookup_inv
      [Hj ->]%plan_ranges_lookup_inv.
    rewrite range_entry_fst, range_entry_snd_inner by lia. nia. }
  intros i j r r' Hne Hr Hr' [Hlo Hhi] [Hlo' Hhi'].
  destruct (decide (i < j)%nat) as [Hij|Hij].
  - specialize (Hlt i j r r' Hij Hr Hr'). lia.
  - assert (j < i)%nat as Hji by lia.
    specialize (Hlt j i r' r Hji Hr' Hr). lia.
Qed.

(** Every offset of the file lies in some range, and no range reaches
    outside the file. *)
Lemma plan_ranges_cover total n x :
  0 < total → 0 < n →
  0 ≤ x < total ↔ ∃ r, r ∈ plan_ranges total n ∧ in_range r x.
Proof.
  intros Ht Hn.
  assert (Hc := chunk_nonneg total n ltac:(lia) Hn).
  assert (Hfit := chunks_fit total n ltac:(lia) Hn).
  split.
  - intros Hx.
    destruct (decide (x < (n - 1) * (total `div` n))) as [Hin|Hlast].
    + (* an inner range: index x // chunk_size *)
      assert (0 < total `div` n) as Hcpos by nia.
      set (c := total `div` n) in *.
      set (i := x `div` c).
      assert (0 ≤ i) by (apply Z.div_pos; lia).
      assert (c * i ≤ x) by (apply Z.mul_div_le; lia).
      assert (x < c * (i + 1)).
      { pose proof (Z.mod_pos_bound x c Hcpos).
        pose proof (Z.div_mod x c ltac:(lia)). subst i. lia. }
      assert (i < n - 1) by nia.
      exists (range_entry total n c i). split.
      * apply list_elem_of_lookup. exists (Z.to_nat i).
        rewrite plan_ranges_lookup by lia. by rewrite Z2Nat.id.
      * unfold in_range.
        rewrite range_entry_fst, range_entry_snd_inner by lia. lia.
    + exists (range_entry total n (total `div` n) (n - 1)). split.
      * apply list_elem_of_lookup. exists (Z.to_nat (n - 1)).
        rewrite plan_ranges_lookup by lia. by rewrite Z2Nat.id by lia.
      * unfold in_range.
        rewrite range_entry_fst, range_entry_snd_last by lia. lia.
  - intros (r & Hr & Hlo & Hhi).
    apply list_elem_of_lookup in Hr as [i [Hi ->]%plan_ranges_lookup_inv].
    rewrite range_entry_fst in Hlo.
    destruct (decide (Z.of_nat i < n - 1)).
    + rewrite range_entry_snd_inner in Hhi by done. nia.
    + rewrite range_entry_snd_last in Hhi by done. nia.
Qed.

(** Consecutive ranges touch: the next one starts right after the end of
    the previous one. *)
Lemma plan_ranges_contiguous total n (i : nat) r r' :
  plan_ranges total n !! i = Some r → plan_ranges total n !! S i = Some r' →
  r'.1 = r.2 + 1.
Proof.
  intros [Hi ->]%plan_ranges_lookup_inv [Hj ->]%plan_ranges_lookup_inv.
  rewrite range_entry_fst, range_entry_snd_inner by lia. lia.
Qed.

Lemma plan_ranges_last total n :
  1 ≤ n →
  ∃ r, last (plan_ranges total n) = Some r ∧ r.2 = total - 1.
Proof.
  intros Hn. rewrite last_lookup, plan_ranges_length.
  rewrite plan_ranges_lookup by lia. eexists. split; [done|].
  apply range_entry_snd_last. lia.
Qed.

(** C3: for [total_size > 0] and [1 <= num_threads <= total_size] the range
    list of [download_file] has [num_threads] entries; range [i] starts at
    [i * (total_size // num_threads)]; every range but the last has length
    [total_size // num_threads]; the last one ends at [total_size - 1]; the
    ranges are non-empty, contiguous, pairwise disjoint and cover exactly
    the offsets [0 .. total_size - 1]. *)
Theorem plan_ranges_partition (total_size num_threads : Z) :
  0 < total_size → 1 ≤ num_threads ≤ total_size →
  let chunk := total_size `div` num_threads in
  let ranges := plan_ranges total_size num_threads in
  length ranges = Z.to_nat num_threads
  ∧ (∀ i : nat, (i < Z.to_nat num_threads)%nat →
       ∃ r, ranges !! i = Some r
            ∧ r.1 = Z.of_nat i * chunk
            ∧ r.1 ≤ r.2
            ∧ (Z.of_nat i < num_threads - 1 → range_len r = chunk)
            ∧ (Z.of_nat i = num_threads - 1 → r.2 = total_size - 1))
  ∧ (∃ r, last ranges = Some r ∧ r.2 = total_size - 1)
  ∧ (∀ (i : nat) r r',
       ranges !! i = Some r → ranges !! S i = Some r' → r'.1 = r.2 + 1)
  ∧ (∀ (i j : nat) r r' x,
       i ≠ j → ranges !! i = Some r → ranges !! j = Some r' →
       in_range r x → ¬ in_range r' x)
  ∧ (∀ x, 0 ≤ x < total_size ↔ ∃ r, r ∈ ranges ∧ in_range r x).
Proof.
  intros Ht Hn chunk ranges.
  assert (Hc : 1 ≤ chunk) by (apply chunk_pos; lia).
  assert (Hfit : num_threads * chunk ≤ total_size)
    by (apply chunks_fit; lia).
  split; [apply plan_ranges_length|].
  split.
  { intros i Hi. eexists. split; [by apply plan_ranges_lookup|].
    fold chunk. rewrite range_entry_fst. split; [done|].
    split; [|split].
    - destruct (decide (Z.of_nat i < num_threads - 1)).
      + rewrite range_entry_snd_inner by done. nia.
      + rewrite range_entry_snd_last by done. nia.
    - intros Hlt. unfold range_len.
      rewrite range_entry_fst, range_entry_snd_inner by done. lia.
    - intros Heq. apply range_entry_snd_last. lia. }
  split; [apply plan_ranges_last; lia|].
  split; [apply plan_ranges_contiguous|].
  split.
  - intros i j r r' x. apply plan_ranges_disjoint; lia.
  - intros x. apply plan_ranges_cover; lia.
Qed.

Lemma plan_ranges_partition_witness :
  0 < 10 ∧ 1 ≤ 4 ≤ 10
  ∧ length (plan_ranges 10 4) = 4%nat
  ∧ plan_ranges 10 4 = [(0, 1); (2, 3); (4, 5); (6, 9)].
Proof.
  split; [lia|]. split; [lia|]. split; [|reflexivity].
  exact (proj1 (plan_ranges_partition 10 4 ltac:(lia) ltac:(lia))).
Defined.

(** C10: for [total_size >= 1] and any [num_threads >= 1], also above
    [total_size], the last range ends at [total_size - 1], the ranges are
    pairwise disjoint, the inclusive ranges (one whose end is below its
    start being empty) cover exactly the offsets [0 .. total_size - 1],
    and when [num_threads > total_size] every range but the last is
    empty. *)
Theorem plan_ranges_any_workers (total_size num_threads : Z) :
  1 ≤ total_size → 1 ≤ num_threads →
  let ranges := plan_ranges total_size num_threads in
  (∃ r, last ranges = Some r ∧ r.2 = total_size - 1)
  ∧ (∀ (i j : nat) r r' x,
       i ≠ j → ranges !! i = Some r → ranges !! j = Some r' →
       in_range r x → ¬ in_range r' x)
  ∧ (∀ x, 0 ≤ x < total_size ↔ ∃ r, r ∈ ranges ∧ in_range r x)
  ∧ (total_size < num_threads →
     ∀ (i : nat) r, ranges !! i = Some r → Z.of_nat i < num_threads - 1 →
                    range_empty r).
Proof.
  intros Ht Hn ranges.
  split; [by apply plan_ranges_last|].
  split; [intros i j r r' x; apply plan_ranges_disjoint; lia|].
  split; [intros x; apply plan_ranges_cover; lia|].
  intros Hgt i r [Hi ->]%plan_ranges_lookup_inv Hlt. unfold range_empty.
  rewrite range_entry_fst, range_entry_snd_inner by done.
  rewrite chunk_zero by lia. lia.
Qed.

Lemma plan_ranges_any_workers_witness :
  1 ≤ 3 ∧ 1 ≤ 5
  ∧ plan_ranges 3 5 = [(0, -1); (0, -1); (0, -1); (0, -1); (0, 2)]
  ∧ ∃ r, last (plan_ranges 3 5) = Some r ∧ r.2 = 3 - 1.
Proof.
  split; [lia|]. split; [lia|]. split; [reflexivity|].
  exact (proj1 (plan_ranges_any_workers 3 5 ltac:(lia) ltac:(lia))).
Defined.

(** ** The metadata step *)

Lemma log_observes url lvl r :
  steps (observes (is_metadata_event url)) (log lvl r).
Proof. apply emit_observes. by right. Qed.

Lemma py_get_observes P v key dflt : steps (observes P) (py_get v key dflt).
Proof. unfold py_get. steps_observes. Qed.

Lemma py_getitem_observes P v key : steps (observes P) (py_getitem v key).
Proof. unfold py_getitem. steps_observes. Qed.

Lemma py_iter_observes P v : steps (observes P) (py_iter v).
Proof. unfold py_iter. steps_observes. Qed.

Lemma py_endswith_observes P v s : steps (observes P) (py_endswith v s).
Proof. unfold py_endswith. steps_observes. Qed.

Lemma py_startswith_observes P v s : steps (observes P) (py_startswith v s).
Proof. unfold py_startswith. steps_observes. Qed.

Lemma collect_asset_observes url asset acc :
  steps (observes (is_metadata_event url)) (collect_asset asset acc).
Proof.
  unfold collect_asset.
  steps_observes_with
    ltac:(first [ apply py_get_observes | apply py_endswith_observes
                | apply py_startswith_observes | apply log_observes ]).
Qed.

Lemma collect_assets_observes url assets acc :
  steps (observes (is_metadata_event url)) (collect_assets assets acc).
Proof.
  revert acc. induction assets as [|a assets IH]; intros acc; simpl.
  - steps_observes.
  - apply steps_bind; [apply observes_trans|apply collect_asset_observes|].
    intros acc'. apply IH.
Qed.

Lemma asset_names_observes P assets : steps (observes P) (asset_names assets).
Proof.
  induction assets as [|a assets IH]; simpl.
  - steps_observes.
  - apply steps_bind; [apply observes_trans|apply py_getitem_observes|].
    intros n. apply steps_bind; [apply observes_trans|apply IH|].
    intros ns. steps_observes.
Qed.

Lemma fetch_release_info_observes env url :
  steps (observes (is_metadata_event url)) (fetch_release_info env url).
Proof.
  unfold fetch_release_info.
  apply steps_bind; [apply observes_trans| |intros _].
  - apply emit_observes. by left.
  - steps_observes.
Qed.

(** The metadata step touches no file and issues no request but its own. *)
Lemma get_expected_hashes_observes env owner name tag :
  steps (observes (is_metadata_event (api_url owner name tag)))
        (get_expected_hashes_from_api env owner name tag).
Proof.
  unfold get_expected_hashes_from_api, get_expected_hashes_body, api_handler.
  steps_observes_with
    ltac:(first [ apply fetch_release_info_observes | apply py_get_observes
                | apply py_iter_observes | apply collect_assets_observes
                | apply asset_names_observes | apply log_observes ]).
Qed.

Lemma qualifies_functional asset f d f' d' :
  qualifies asset f d → qualifies asset f' d' → f = f' ∧ d = d'.
Proof. intros (H1 & _ & H2 & _) (H1' & _ & H2' & _). split; congruence. Qed.

(** What one turn of the loop does to the mapping. *)
Lemma collect_asset_ok asset acc w m w' :
  collect_asset asset acc w = (Ok m, w') →
  (∃ f d, qualifies asset f d ∧ m = <[f := digest_value d]> acc)
  ∨ ((∀ f d, ¬ qualifies asset f d) ∧ m = acc).
Proof.
  unfold collect_asset, qualifies, asset_field.
  destruct asset as [| | | |items|fields]; simpl; try (by intros [=]).
  unfold bind, ret; simpl.
  destruct (default (JStr "") (dict_lookup fields "name"))
    as [| | |filename| |] eqn:Hname; simpl; try (by intros [=]).
  destruct (str_endswith filename ".rpm") eqn:Hrpm; simpl.
  - destruct (default (JStr "") (dict_lookup fields "digest"))
      as [| | |digest| |] eqn:Hdig; simpl; try (by intros [=]).
    destruct (str_startswith digest "sha256:") eqn:Hsha; simpl.
    + intros [= <- _]. left. by exists filename, digest.
    + intros [= <- _]. right. split; [|done].
      intros f d (_ & _ & [= ->] & Hs). congruence.
  - intros [= <- _]. right. split; [|done].
    intros f d ([= ->] & He & _). congruence.
Qed.

(** The loop, from a mapping [acc]: the keys it adds come from qualifying
    assets, every qualifying asset leaves its key, and a key holds the
    value of the last qualifying asset carrying it. *)
Lemma collect_assets_ok assets : ∀ acc w m w',
  collect_assets assets acc w = (Ok m, w') →
  (∀ f v, m !! f = Some v →
     acc !! f = Some v
     ∨ ∃ asset d, asset ∈ assets ∧ qualifies asset f d ∧ v = digest_value d)
  ∧ (∀ f, is_Some (acc !! f) → is_Some (m !! f))
  ∧ (∀ f, (∀ asset d, asset ∈ assets → ¬ qualifies asset f d) →
          m !! f = acc !! f)
  ∧ (∀ asset f d, asset ∈ assets → qualifies asset f d → is_Some (m !! f))
  ∧ (∀ (i : nat) asset f d,
       assets !! i = Some asset → qualifies asset f d →
       (∀ (j : nat) asset' d', (i < j)%nat → assets !! j = Some asset' →
                               ¬ qualifies asset' f d') →
       m !! f = Some (digest_value d)).
Proof.
  induction assets as [|a assets IH]; intros acc w m w'; simpl.
  - intros [= <- _]. repeat split.
    + by left.
    + done.
    + intros asset f d []%elem_of_nil.
    + intros i asset f d. by rewrite lookup_nil.
  - intros [(acc1 & w1 & Ha & Hrest)|(e & _ & [=])]%bind_inv.
    apply collect_asset_ok in Ha.
    apply IH in Hrest as (IH1 & IH2 & IH3 & IH4 & IH5).
    assert (Hstep : ∀ f, (∀ d, ¬ qualifies a f d) → acc1 !! f = acc !! f).
    { intros f Hf. destruct Ha as [(f0 & d0 & Hq & ->)|[_ ->]]; [|done].
      apply lookup_insert_ne. intros ->. by eapply Hf. }
    repeat split.
    + intros f v Hm. destruct (IH1 f v Hm) as [Hacc1|(asset & d & Hin & Hq & ->)].
      * destruct Ha as [(f0 & d0 & Hq & ->)|[_ ->]]; [|by left].
        destruct (decide (f0 = f)) as [->|Hne].
        -- rewrite lookup_insert_eq in Hacc1. injection Hacc1 as <-.
           right. exists a, d0. split; [left|done].
        -- rewrite lookup_insert_ne in Hacc1 by done. by left.
      * right. exists asset, d. split; [by right|done].
    + intros f Hf. apply IH2.
      destruct Ha as [(f0 & d0 & Hq & ->)|[_ ->]]; [|done].
      destruct (decide (f0 = f)) as [->|Hne].
      * rewrite lookup_insert_eq. eauto.
      * by rewrite lookup_insert_ne.
    + intros f Hf. rewrite IH3.
      * apply Hstep. intros d. apply Hf. left.
      * intros asset d Hin. apply Hf. by right.
    + intros asset f d [->|Hin]%elem_of_cons Hq.
      * apply IH2. destruct Ha as [(f0 & d0 & Hq0 & ->)|[Hno _]].
        -- destruct (qualifies_functional _ _ _ _ _ Hq Hq0) as [-> _].
           rewrite lookup_insert_eq. eauto.
        -- by destruct (Hno f d).
      * by eapply IH4.
    + intros [|i] asset f d Hi Hq Hlater.
      * simpl in Hi. injection Hi as ->. rewrite IH3.
        -- destruct Ha as [(f0 & d0 & Hq0 & ->)|[Hno _]].
           ++ destruct (qualifies_functional _ _ _ _ _ Hq Hq0) as [-> ->].
              apply lookup_insert_eq.
           ++ by destruct (Hno f d).
        -- intros asset' d' [j Hj]%list_elem_of_lookup.
           apply (Hlater (S j)); [lia|done].
      * simpl in Hi. eapply IH5; [done|done|].
        intros j asset' d' Hij Hj. apply (Hlater (S j)); [lia|done].
Qed.

(** When the metadata step returns, the response parsed to a value whose
    assets could be iterated, and the mapping is what the loop built from
    the empty one. *)
Lemma get_expected_hashes_ok_inv env owner name tag w m w' :
  get_expected_hashes_from_api env owner name tag w = (Ok m, w') →
  ∃ release_info assets w1 w2,
    api_of env (api_url owner name tag) = ApiJSON release_info
    ∧ assets_of release_info = Some assets
    ∧ collect_assets assets ∅ w1 = (Ok m, w2).
Proof.
  unfold get_expected_hashes_from_api.
  intros [(m' & Hbody & [= <-])|(e & w1 & _ & Hh)]%try_except_inv.
  2:{ unfold api_handler in Hh.
      apply bind_inv in Hh as [(? & ? & _ & [=])|(? & _ & [=])]. }
  unfold get_expected_hashes_body in Hbody.
  apply bind_inv in Hbody as [(j & w1 & Hj & Hbody)|(? & _ & [=])].
  apply bind_inv in Hbody as [(av & w2 & Hav & Hbody)|(? & _ & [=])].
  apply bind_inv in Hbody as [(assets & w3 & Hit & Hbody)|(? & _ & [=])].
  apply bind_inv in Hbody as [(m0 & w4 & Hm0 & Hbody)|(? & _ & [=])].
  apply bind_inv in Hbody as [([] & w5 & _ & [= <- _])|(? & _ & [=])].
  exists j, assets, w3, w4. split; [|split; [|done]].
  - unfold fetch_release_info, bind, emit in Hj.
    destruct (api_of env _); by inversion Hj.
  - unfold py_get in Hav. unfold assets_of.
    destruct j; try (by inversion Hav). injection Hav as <- _.
    unfold py_iter in Hit.
    destruct (default _ _); by inversion Hit.
Qed.

(** C9, as stated, fails when two assets share a file name: the first one
    qualifies, yet the mapping holds the digest of the second. *)
Lemma first_twin_not_mapped :
  ∃ m w',
    get_expected_hashes_from_api (metadata_env (ApiJSON (release_json twin_assets)))
      repo_owner repo_name release_tag empty_world = (Ok m, w')
    ∧ m = {[ "ctxusb.rpm"%string := "bb22"%string ]}
    ∧ assets_of (release_json twin_assets) = Some twin_assets
    ∧ ¬ (∀ asset f d, asset ∈ twin_assets → qualifies asset f d →
                      m !! f = Some (digest_value d)).
Proof.
  exists {[ "ctxusb.rpm"%string := "bb22"%string ]}.
  eexists. split; [vm_compute; reflexivity|].
  split; [reflexivity|]. split; [reflexivity|].
  intros Hall.
  specialize (Hall (asset_json "ctxusb.rpm" "sha256:AA11")
                   "ctxusb.rpm"%string "sha256:AA11"%string).
  assert (Hbad : ({[ "ctxusb.rpm"%string := "bb22"%string ]}
                    : gmap string string) !! "ctxusb.rpm"%string
                 = Some (digest_value "sha256:AA11")).
  { apply Hall; [left|]. by repeat split. }
  vm_compute in Hbad. discriminate Hbad.
Qed.

(** C9 (amended): whenever [get_expected_hashes_from_api] returns a mapping,
    every key of it is the file name of an asset whose name ends in
    ['.rpm'] and whose digest starts with ['sha256:'], with the lowercase
    digest value of such an asset; every such asset has its file name in
    the mapping; and the value under a file name is the lowercase digest
    value of the last such asset carrying that name. *)
Theorem expected_hashes_last_wins env owner name tag w m w' :
  get_expected_hashes_from_api env owner name tag w = (Ok m, w') →
  ∃ release_info assets,
    api_of env (api_url owner name tag) = ApiJSON release_info
    ∧ assets_of release_info = Some assets
    ∧ (∀ f v, m !! f = Some v →
         ∃ asset d, asset ∈ assets ∧ qualifies asset f d ∧ v = digest_value d)
    ∧ (∀ asset f d, asset ∈ assets → qualifies asset f d → is_Some (m !! f))
    ∧ (∀ (i : nat) asset f d,
         assets !! i = Some asset → qualifies asset f d →
         (∀ (j : nat) asset' d', (i < j)%nat → assets !! j = Some asset' →
                                 ¬ qualifies asset' f d') →
         m !! f = Some (digest_value d)).
Proof.
  intros (j & assets & w1 & w2 & Hapi & Hassets & Hloop)%get_expected_hashes_ok_inv.
  exists j, assets. split; [done|]. split; [done|].
  apply collect_assets_ok in Hloop as (H1 & _ & _ & H4 & H5).
  split; [|split; [exact H4|exact H5]].
  intros f v Hm. destruct (H1 f v Hm) as [Hempty|Hfrom]; [|done].
  by rewrite lookup_empty in Hempty.
Qed.

Lemma expected_hashes_last_wins_witness :
  ∃ w',
    get_expected_hashes_from_api (metadata_env (ApiJSON (release_json mixed_assets)))
      repo_owner repo_name release_tag empty_world
    = (Ok {[ "ctxusb.rpm"%string := "0f0f"%string;
             "ICAClient.rpm"%string := "abcd"%string ]}, w')
    ∧ ∃ release_info assets,
        release_info = release_json mixed_assets
        ∧ assets_of release_info = Some assets
        ∧ ({[ "ctxusb.rpm"%string := "0f0f"%string;
              "ICAClient.rpm"%string := "abcd"%string ]} : gmap string string)
            !! "ctxusb.rpm"%string = Some (digest_value "sha256:0F0F").
Proof.
  eexists.
  assert (Hrun : get_expected_hashes_from_api
                   (metadata_env (ApiJSON (release_json mixed_assets)))
                   repo_owner repo_name release_tag empty_world
                 = (Ok {[ "ctxusb.rpm"%string := "0f0f"%string;
                          "ICAClient.rpm"%string := "abcd"%string ]}, _))
    by (vm_compute; reflexivity).
  split; [exact Hrun|].
  destruct (expected_hashes_last_wins _ _ _ _ _ _ _ Hrun)
    as (j & assets & Hj & Hassets & _ & _ & Hlast).
  exists j, assets. split; [by injection Hj|]. split; [exact Hassets|].
  injection Hj as <-. injection Hassets as <-.
  apply (Hlast 0%nat (asset_json "ctxusb.rpm" "sha256:0F0F")
               "ctxusb.rpm"%string "sha256:0F0F"%string).
  - reflexivity.
  - by repeat split.
  - intros [|[|[|[|n]]]] asset' d' Hlt Hl (Hn & _); try lia;
      by inversion Hl; subst asset'.
Defined.

(** An unreachable source or a malformed body makes the metadata step
    raise. *)
Lemma get_expected_hashes_fails env owner name tag w :
  (∃ e0, api_of env (api_url owner name tag) = ApiUnreachable e0)
  ∨ api_of env (api_url owner name tag) = ApiMalformed →
  ∃ e, (get_expected_hashes_from_api env owner name tag w).1 = Raise e.
Proof.
  unfold get_expected_hashes_from_api, try_except, get_expected_hashes_body,
    bind, fetch_release_info, emit, api_handler.
  intros [[e0 ->]| ->]; simpl.
  - exists e0. unfold bind, log, emit, raise.
    by destruct (is_URLError e0), (is_JSONDecodeError e0).
  - by exists JSONDecodeError.
Qed.

(** C5: if the metadata request fails (the source is unreachable or the
    body is malformed), or the metadata step yields no usable entry, the
    script ends with a raised error, and all it has done by then is the
    metadata request and logging: no file or directory was touched and no
    artifact request was issued. *)
Theorem metadata_failure_aborts env w :
  (∃ e0, api_of env (api_url repo_owner repo_name release_tag)
         = ApiUnreachable e0)
  ∨ api_of env (api_url repo_owner repo_name release_tag) = ApiMalformed
  ∨ metadata_unusable
      (get_expected_hashes_from_api env repo_owner repo_name release_tag w).1 →
  ∃ e w',
    main env w = (Raise e, w')
    ∧ observes (is_metadata_event (api_url repo_owner repo_name release_tag))
               w w'.
Proof.
  intros H.
  assert (Hbad : metadata_unusable
    (get_expected_hashes_from_api env repo_owner repo_name release_tag w).1).
  { destruct H as [H|[H|H]]; [| |done].
    - destruct (get_expected_hashes_fails env repo_owner repo_name
                  release_tag w (or_introl H)) as [e ->]. done.
    - destruct (get_expected_hashes_fails env repo_owner repo_name
                  release_tag w (or_intror H)) as [e ->]. done. }
  destruct (get_expected_hashes_from_api env repo_owner repo_name
              release_tag w) as [[m|e] w1] eqn:Hget; simpl in Hbad.
  - subst m. exists (Exception MsgAutoFetchFailed), w1. split.
    + unfold main. erewrite bind_ok by done.
      by rewrite bool_decide_eq_true_2.
    + by eapply get_expected_hashes_observes.
  - exists e, w1. split.
    + unfold main. by erewrite bind_raise.
    + by eapply get_expected_hashes_observes.
Qed.

Lemma metadata_failure_aborts_witness :
  ∃ e w',
    main (metadata_env (ApiJSON (release_json []))) empty_world = (Raise e, w')
    ∧ e = Exception MsgAutoFetchFailed
    ∧ observes (is_metadata_event (api_url repo_owner repo_name release_tag))
               empty_world w'.
Proof.
  destruct (metadata_failure_aborts
              (metadata_env (ApiJSON (release_json []))) empty_world)
    as (e & w' & Hmain & Hobs).
  { right. right. vm_compute. reflexivity. }
  exists e, w'. split; [done|]. split; [|done].
  vm_compute in Hmain. by injection Hmain as <- _.
Defined.

(** ** Reading a response and writing into the file *)

Lemma stream_bytes_join (segments : list bytes) :
  stream_bytes segments = length (mjoin segments).
Proof.
  unfold stream_bytes. induction segments as [|s segs IH]; [done|].
  rewrite fmap_cons. simpl. rewrite length_app, IH. done.
Qed.

(** [read(amt)] hands out the front of the stream, at most [amt] bytes of
    it, and nothing only when the stream is exhausted. *)
Lemma response_read_spec amt (segments : list bytes) chunk segments' :
  0 < amt →
  response_read amt segments = (chunk, segments') →
  mjoin segments = chunk ++ mjoin segments'
  ∧ Z.of_nat (length chunk) ≤ amt
  ∧ (chunk = [] → mjoin segments = []).
Proof.
  intros Hamt. induction segments as [|seg rest IH]; simpl.
  - intros [= <- <-]. simpl. repeat split; first [lia|done].
  - destruct seg as [|b seg].
    + intros Hr. apply IH in Hr. done.
    + intros [= <- <-]. split; [|split].
      * rewrite <- (take_drop (Z.to_nat amt) (b :: seg)) at 1.
        rewrite <- app_assoc. f_equal.
        destruct (drop (Z.to_nat amt) (b :: seg)); simpl; [done|].
        done.
      * rewrite length_take. lia.
      * destruct (Z.to_nat amt) eqn:Hz; [lia|]. simpl. done.
Qed.

Lemma write_at_prefix (content : bytes) (off : nat) (data : bytes) :
  take (off + length data) (write_at content off data)
  = take off (content ++ zeros (off - length content)) ++ data.
Proof.
  unfold write_at, zeros.
  assert (Hlen : length (take off content
                         ++ replicate (off - length content) x00) = off).
  { rewrite length_app, length_take, length_replicate. lia. }
  assert (Hpad : take off (content ++ replicate (off - length content) x00)
                 = take off content ++ replicate (off - length content) x00).
  { destruct (decide (off ≤ length content)%nat).
    - replace (off - length content)%nat with 0%nat by lia. simpl.
      by rewrite !app_nil_r.
    - rewrite take_ge by (rewrite length_app, length_replicate; lia).
      by rewrite (take_ge content) by lia. }
  rewrite Hpad.
  rewrite !app_assoc. rewrite take_app_length'; [done|].
  rewrite length_app, Hlen. done.
Qed.

Lemma write_at_length (content : bytes) (off : nat) (data : bytes) :
  (off + length data ≤ length (write_at content off data))%nat.
Proof.
  unfold write_at, zeros.
  rewrite !length_app, length_take, length_replicate. lia.
Qed.

Lemma padded_prefix_length (content : bytes) (off : nat) :
  length (take off (content ++ zeros (off - length content))) = off.
Proof.
  unfold zeros. rewrite length_take, length_app, length_replicate. lia.
Qed.

(** A second write right behind the first keeps what the first left. *)
Lemma write_at_then (content final : bytes) (off : nat) (data rest : bytes) :
  take (off + length data + length rest) final
  = take (off + length data)
      (write_at content off data
       ++ zeros (off + length data - length (write_at content off data)))
    ++ rest →
  take (off + length (data ++ rest)) final
  = take off (content ++ zeros (off - length content)) ++ data ++ rest.
Proof.
  intros Hfinal. rewrite length_app, Nat.add_assoc, Hfinal.
  pose proof (write_at_length content off data).
  replace (off + length data - length (write_at content off data))%nat
    with 0%nat by lia.
  simpl. rewrite app_nil_r, write_at_prefix. by rewrite <- app_assoc.
Qed.

Lemma slice_of_prefix (content front body : bytes) :
  take (length front + length body) content = front ++ body →
  slice content (length front) (length body) = body.
Proof.
  intros Heq. unfold slice.
  rewrite <- (take_drop (length front + length body) content) at 1.
  rewrite Heq, <- app_assoc. rewrite drop_app_length.
  by rewrite take_app_length.
Qed.

Lemma layout_lookup path offset chunks (k : nat) p off data :
  layout path offset chunks !! k = Some (p, off, data) →
  p = path ∧ chunks !! k = Some data
  ∧ off = offset + Z.of_nat (length (mjoin (take k chunks))).
Proof.
  revert offset k. induction chunks as [|c cs IH]; intros offset k; simpl.
  - by rewrite lookup_nil.
  - destruct k as [|k]; simpl.
    + intros [= <- <- <-]. repeat split. lia.
    + intros (-> & Hc & ->)%IH. repeat split; [done|].
      rewrite length_app. lia.
Qed.

Lemma layout_data path offset chunks :
  (layout path offset chunks).*2 = chunks.
Proof.
  revert offset. induction chunks as [|c cs IH]; intros offset; simpl;
    [done|]. by rewrite IH.
Qed.

Lemma writes_of_app evs1 evs2 :
  writes_of (evs1 ++ evs2) = writes_of evs1 ++ writes_of evs2.
Proof. unfold writes_of. apply omap_app. Qed.

(** ** download_chunk *)

Lemma chunk_size_pos : 0 < chunk_size.
Proof. done. Qed.

Lemma run_fetcher_finished env t fuel w :
  run_fetcher env t fuel Finished w = (Ok Finished, w).
Proof. by destruct fuel. Qed.

(** The handlers of [download_chunk] log one error record and return. *)
Lemma chunk_handler_runs t e w :
  ∃ r, chunk_handler t e w
       = (Ok Finished, World (files w) (dirs w) (trace w ++ [EvLog ERROR r])).
Proof.
  unfold chunk_handler, bind, log, emit, ret.
  destruct (is_HTTPError e); [by eexists|].
  destruct (is_URLError e); [by eexists|].
  destruct (is_IOError e); by eexists.
Qed.

(** The outcome of a call that ended in a handler: one error record, no
    write. *)
Lemma fetch_outcome_failed t offset body broken w r :
  fetch_outcome t offset body broken w
    (World (files w) (dirs w) (trace w ++ [EvLog ERROR r]))
    [EvLog ERROR r] [].
Proof.
  unfold fetch_outcome. simpl. split_and!; try done.
  - by exists body.
  - apply Forall_singleton. simpl. tauto.
  - intros [[=]|[]%elem_of_nil]%elem_of_cons.
Qed.

(** The read loop returns within the fuel its stream calls for, and leaves
    the outcome described by [fetch_outcome]. *)
Lemma reading_loop env t broken : ∀ (fuel : nat) segments downloaded w,
  (length (mjoin segments) < fuel)%nat →
  ∃ w' evs chunks,
    run_fetcher env t fuel (Reading segments broken downloaded) w
    = (Ok Finished, w')
    ∧ fetch_outcome t (t_start t + downloaded) (mjoin segments) broken
                    w w' evs chunks.
Proof.
  induction fuel as [|k IH]; intros segs d w Hfuel; [lia|].
  simpl. unfold bind at 1, try_except, read_turn.
  destruct (response_read chunk_size segs) as [chunk segs'] eqn:Hread.
  destruct (response_read_spec _ _ _ _ chunk_size_pos Hread)
    as (Hjoin & Hlen & Hempty).
  destruct chunk as [|b chunk].
  - destruct broken as [e|].
    + unfold raise. destruct (chunk_handler_runs t e w) as [r ->].
      rewrite run_fetcher_finished. eexists _, _, _. split; [done|].
      apply fetch_outcome_failed.
    + unfold bind, log, emit, ret. simpl. rewrite run_fetcher_finished.
      eexists _, [_], []. split; [done|].
      unfold fetch_outcome. simpl. rewrite Hempty by done.
      split_and!; try done.
      * by exists [].
      * apply Forall_singleton. simpl. tauto.
  - unfold write_file_at, bind at 1 2, get_world.
    destruct (files w !! t_path t) as [c|] eqn:Hfile.
    2:{ unfold raise. destruct (chunk_handler_runs t (OSError "open: no such file") w)
          as [r ->].
        rewrite run_fetcher_finished. eexists _, _, _. split; [done|].
        apply fetch_outcome_failed. }
    set (len := Z.of_nat (length (b :: chunk))) in *.
    replace (t_start t + (d + len) - len) with (t_start t + d) by lia.
    case_bool_decide as Hneg.
    { unfold raise.
      destruct (chunk_handler_runs t (OSError "seek: invalid argument") w)
        as [r ->].
      rewrite run_fetcher_finished. eexists _, _, _. split; [done|].
      apply fetch_outcome_failed. }
    unfold bind, emit, set_files, ret. simpl.
    set (w1 := World _ _ _).
    destruct (IH segs' (d + len) w1) as (w' & evs & chunks & -> & Hout).
    { rewrite Hjoin, length_app in Hfuel. simpl in Hfuel. lia. }
    destruct Hout as (Htr & Hdirs & Hwr & Hinc & [rest Hrest] & Hreq
                      & Hnone & Hdone).
    exists w', (EvWrite (t_path t) (t_start t + d) (b :: chunk) :: evs),
      ((b :: chunk) :: chunks).
    split; [done|]. unfold fetch_outcome.
    split. { rewrite Htr. subst w1. simpl. by rewrite <- app_assoc. }
    split; [done|].
    split. { simpl. rewrite Hwr. f_equal. f_equal. subst len.
             rewrite length_cons. lia. }
    split. { constructor; [|done]. unfold increment_ok.
             unfold chunk_size in Hlen. subst len.
             rewrite length_cons in *. lia. }
    split. { exists rest. rewrite Hjoin, Hrest. simpl.
             by rewrite <- !app_assoc. }
    split. { constructor; [|done]. simpl. tauto. }
    split. { rewrite Hjoin. done. }
    intros [[=]|Hin]%elem_of_cons.
    destruct (Hdone Hin) as (-> & Hall & Hfile').
    split; [done|]. split. { simpl. rewrite Hall, Hjoin. done. }
    intros _. split; [lia|].
    exists c. rewrite Hjoin.
    assert (Ho' : Z.to_nat (t_start t + (d + len))
                  = (Z.to_nat (t_start t + d) + length (b :: chunk))%nat).
    { subst len. lia. }
    destruct (decide (mjoin segs' = [])) as [Hnil|Hnn].
    + rewrite Hnil, app_nil_r. rewrite (Hnone Hnil). subst w1. simpl.
      rewrite lookup_insert_eq. eexists. split; [done|]. split; [done|].
      apply (write_at_prefix c _ (b :: chunk)).
    + destruct (Hfile' Hnn) as (_ & c1 & c' & Hc1 & Hc' & Hprefix).
      subst w1. simpl in Hc1. rewrite lookup_insert_eq in Hc1.
      injection Hc1 as <-. exists c'. split; [done|]. split; [done|].
      apply write_at_then. rewrite Ho' in Hprefix. exact Hprefix.
Qed.

(** The first step of a call: the ranged request. *)
Lemma chunk_step_pending_fail env t w e :
  ranged env (t_url t) (t_start t) (t_end t) = RangeFail e →
  ∃ r, chunk_step env t Pending w
       = (Ok Finished,
          World (files w) (dirs w)
            (trace w ++ [EvUrlopen (t_url t) (Some (t_start t, t_end t));
                         EvLog ERROR r])).
Proof.
  intros Hresp. unfold chunk_step, try_except, open_range, bind, emit.
  rewrite Hresp. unfold raise.
  match goal with |- context [chunk_handler t e ?w0] =>
    destruct (chunk_handler_runs t e w0) as [r ->] end.
  exists r. simpl. by rewrite <- app_assoc.
Qed.

Lemma chunk_step_pending_ok env t w segments broken :
  ranged env (t_url t) (t_start t) (t_end t) = RangeBody segments broken →
  chunk_step env t Pending w
  = (Ok (Reading segments broken 0),
     World (files w) (dirs w)
       (trace w ++ [EvUrlopen (t_url t) (Some (t_start t, t_end t))])).
Proof.
  intros Hresp. unfold chunk_step, try_except, open_range, bind, emit.
  by rewrite Hresp.
Qed.

(** What [fetch_outcome] says about each write and about the file. *)
Lemma fetch_outcome_writes t offset body broken w w' evs chunks :
  fetch_outcome t offset body broken w w' evs chunks →
  (∀ (k : nat) p off data,
     writes_of evs !! k = Some (p, off, data) →
     p = t_path t ∧ increment_ok data
     ∧ off = offset
             + Z.of_nat (length (mjoin (take k (writes_of evs).*2))))
  ∧ (EvLog INFO (LogCompletedRange (t_start t) (t_end t)) ∈ evs →
     broken = None
     ∧ mjoin (writes_of evs).*2 = body
     ∧ (body ≠ [] →
        0 ≤ offset
        ∧ ∃ content, files w' !! t_path t = Some content
                     ∧ slice content (Z.to_nat offset) (length body) = body)).
Proof.
  intros (_ & _ & Hwr & Hinc & _ & _ & _ & Hdone). rewrite Hwr. split.
  - intros k p off data Hk.
    apply layout_lookup in Hk as (-> & Hdata & ->).
    rewrite layout_data. split; [done|]. split; [|done].
    eapply Forall_lookup_1; eauto.
  - intros Hin. destruct (Hdone Hin) as (-> & Hall & Hfile).
    split; [done|]. rewrite layout_data. split; [done|].
    intros Hne. destruct (Hfile Hne) as (Hoff & c & c' & _ & Hc' & Hprefix).
    split; [done|]. exists c'. split; [done|].
    rewrite <- (padded_prefix_length c (Z.to_nat offset)) at 1.
    apply slice_of_prefix. by rewrite padded_prefix_length.
Qed.

(** C7: a call of [download_chunk] for the range [start .. end] always
    returns; it issues exactly one request, the ranged GET, before
    anything else; every piece it writes is non-empty, at most 8192 bytes
    long, goes to the destination file, and the k-th piece is written at
    offset [start] plus the length of the pieces written before it; and
    when the range is logged as completed, the pieces written are the
    whole response body, which then sits at offsets
    [start .. start + length body - 1] of the destination file. *)
Theorem download_chunk_streams env url save_path start end_ w :
  ∃ w' evs,
    download_chunk env url save_path start end_ w = (Ok tt, w')
    ∧ trace w' = trace w ++ EvUrlopen url (Some (start, end_)) :: evs
    ∧ Forall (λ ev, ¬ is_request ev) evs
    ∧ (∀ (k : nat) p off data,
         writes_of evs !! k = Some (p, off, data) →
         p = save_path ∧ increment_ok data
         ∧ off = start
                 + Z.of_nat (length (mjoin (take k (writes_of evs).*2))))
    ∧ (EvLog INFO (LogCompletedRange start end_) ∈ evs →
       ∃ segments,
         ranged env url start end_ = RangeBody segments None
         ∧ mjoin (writes_of evs).*2 = mjoin segments
         ∧ (mjoin segments ≠ [] →
            0 ≤ start
            ∧ ∃ content,
                files w' !! save_path = Some content
                ∧ slice content (Z.to_nat start) (length (mjoin segments))
                  = mjoin segments)).
Proof.
  unfold download_chunk, finish, steps_bound.
  set (t := Task url save_path start end_).
  change (ranged env (t_url t) (t_start t) (t_end t))
    with (ranged env url start end_).
  destruct (ranged env url start end_) as [e|segs broken] eqn:Hresp.
  - destruct (chunk_step_pending_fail env t w e Hresp) as [r Hstep].
    cbn [run_fetcher].
    rewrite (bind_ok _ _ _ _ _ (bind_ok _ _ _ _ _ Hstep)).
    eexists _, [EvLog ERROR r]. split; [done|]. simpl.
    split; [done|].
    split. { apply Forall_singleton. simpl. tauto. }
    split. { intros k p off data. by rewrite lookup_nil. }
    intros [[=]|[]%elem_of_nil]%elem_of_cons.
  - change (2 + stream_bytes segs)%nat with (S (S (stream_bytes segs))).
    pose proof (chunk_step_pending_ok env t w segs broken Hresp) as Hstep.
    destruct (reading_loop env t broken (S (stream_bytes segs)) segs 0
                (World (files w) (dirs w)
                   (trace w ++ [EvUrlopen url (Some (start, end_))])))
      as (w' & evs & chunks & Hrun & Hout).
    { rewrite stream_bytes_join. lia. }
    exists w', evs. split.
    { change (run_fetcher env t (S (S (stream_bytes segs))) Pending)
        with (bind (chunk_step env t Pending)
                   (run_fetcher env t (S (stream_bytes segs)))).
      unfold bind. rewrite Hstep. subst t. cbn [t_url t_start t_end].
      rewrite Hrun. done. }
    pose proof Hout as (Htr & _ & _ & _ & _ & Hreq & _).
    split. { rewrite Htr. simpl. by rewrite <- app_assoc. }
    split; [done|].
    apply fetch_outcome_writes in Hout as [Hwrites Hdone].
    simpl in Hwrites, Hdone. rewrite Z.add_0_r in Hwrites, Hdone.
    split; [exact Hwrites|].
    intros Hin. destruct (Hdone Hin) as (-> & Hall & Hfile).
    exists segs. done.
Qed.

(** ** The fetchers never raise *)

Lemma chunk_step_ok env t f w : ∃ f' w', chunk_step env t f w = (Ok f', w').
Proof.
  destruct f as [|segs broken d|].
  - destruct (ranged env (t_url t) (t_start t) (t_end t)) as [e|s b] eqn:Hr.
    + destruct (chunk_step_pending_fail env t w e Hr) as [r ->]. eauto.
    + rewrite (chunk_step_pending_ok env t w s b Hr). eauto.
  - unfold chunk_step, try_except.
    destruct (read_turn t segs broken d w) as [[f'|e] w1]; [eauto|].
    destruct (chunk_handler_runs t e w1) as [r ->]. eauto.
  - simpl. unfold ret. eauto.
Qed.

Lemma run_fetcher_ok env t (fuel : nat) : ∀ f w,
  ∃ f' w', run_fetcher env t fuel f w = (Ok f', w').
Proof.
  induction fuel as [|k IH]; intros f w; simpl; [unfold ret; eauto|].
  destruct f as [|segs broken d|]; [| |unfold ret; eauto].
  - destruct (chunk_step_ok env t Pending w) as (f' & w1 & Hs).
    rewrite (bind_ok _ _ _ _ _ Hs). apply IH.
  - destruct (chunk_step_ok env t (Reading segs broken d) w)
      as (f' & w1 & Hs).
    rewrite (bind_ok _ _ _ _ _ Hs). apply IH.
Qed.

Lemma run_schedule_ok env sched : ∀ pool w,
  ∃ pool' w', run_schedule env sched pool w = (Ok pool', w').
Proof.
  induction sched as [|i sched IH]; intros pool w; simpl.
  - unfold ret. eauto.
  - destruct (pool !! i) as [[t f]|]; [|apply IH].
    destruct (chunk_step_ok env t f w) as (f' & w1 & Hs).
    rewrite (bind_ok _ _ _ _ _ Hs). apply IH.
Qed.

Lemma join_all_ok env pool : ∀ w, ∃ w', join_all env pool w = (Ok tt, w').
Proof.
  induction pool as [|[t f] pool IH]; intros w; simpl.
  - unfold ret. eauto.
  - destruct (run_fetcher_ok env t (steps_bound env t f) f w)
      as (f' & w1 & Hs).
    unfold finish. rewrite (bind_ok _ _ _ _ _ Hs). apply IH.
Qed.

(** Whatever happens to the ranges, once there is at least one worker the
    pool phase of [download_file] returns normally: a fetcher's error is
    logged by its handler and goes no further. *)
Lemma fetch_all_returns env url save_path total_size num_threads w :
  0 < num_threads →
  ∃ w', fetch_all env url save_path total_size num_threads w = (Ok tt, w').
Proof.
  intros Hn. unfold fetch_all.
  rewrite bool_decide_eq_false_2 by lia.
  rewrite bool_decide_eq_false_2 by lia.
  match goal with |- context [run_schedule env ?s ?p] =>
    destruct (run_schedule_ok env s p w) as (pool' & w1 & Hs) end.
  rewrite (bind_ok _ _ _ _ _ Hs). apply join_all_ok.
Qed.

(** ** Events of the download phase *)

Lemma chunk_step_unverified env t f :
  steps (extends unverified) (chunk_step env t f).
Proof.
  unfold chunk_step, open_range, read_turn, chunk_handler, write_file_at,
    log, unverified.
  steps_extends.
Qed.

Lemma run_fetcher_unverified env t (fuel : nat) : ∀ f,
  steps (extends unverified) (run_fetcher env t fuel f).
Proof.
  induction fuel as [|k IH]; intros f; simpl.
  - apply steps_ret, extends_refl.
  - destruct f; try (apply steps_ret, extends_refl);
      (apply steps_bind; [apply extends_trans
                         |apply chunk_step_unverified|intros ?; apply IH]).
Qed.

Lemma run_schedule_unverified env sched : ∀ pool,
  steps (extends unverified) (run_schedule env sched pool).
Proof.
  induction sched as [|i sched IH]; intros pool; simpl.
  - apply steps_ret, extends_refl.
  - destruct (pool !! i) as [[t f]|]; [|apply IH].
    apply steps_bind; [apply extends_trans
                      |apply chunk_step_unverified|intros ?; apply IH].
Qed.

Lemma join_all_unverified env pool :
  steps (extends unverified) (join_all env pool).
Proof.
  induction pool as [|[t f] pool IH]; simpl.
  - apply steps_ret, extends_refl.
  - apply steps_bind; [apply extends_trans
                      |apply run_fetcher_unverified|intros ?; apply IH].
Qed.

Lemma fetch_all_unverified env url save_path total_size num_threads :
  steps (extends unverified)
        (fetch_all env url save_path total_size num_threads).
Proof.
  unfold fetch_all.
  steps_extends_with
    ltac:(first [ apply run_schedule_unverified | apply join_all_unverified ]).
Qed.

(** ** Size discovery and allocation *)

Lemma size_discovery_none env url w :
  probe_of env url = ProbeOk HdrAbsent
  ∨ probe_of env url = ProbeOk (HdrInt 0) →
  size_discovery env url w
  = (Raise (ValueError MsgNoSize),
     World (files w) (dirs w) (trace w ++ [EvUrlopen url None])).
Proof.
  unfold size_discovery, bind, emit. by intros [-> | ->].
Qed.

Lemma size_discovery_some env url w total_size :
  probe_of env url = ProbeOk (HdrInt total_size) → total_size ≠ 0 →
  size_discovery env url w
  = (Ok total_size,
     World (files w) (dirs w) (trace w ++ [EvUrlopen url None])).
Proof.
  unfold size_discovery, bind, emit. intros -> Hne. simpl.
  unfold ret at 1. by rewrite bool_decide_eq_false_2.
Qed.

Lemma size_discovery_unfetched env url :
  steps (extends unfetched) (size_discovery env url).
Proof. unfold size_discovery, unfetched. steps_extends. Qed.

Lemma size_discovery_unverified env url :
  steps (extends unverified) (size_discovery env url).
Proof. unfold size_discovery, unverified. steps_extends. Qed.

Lemma allocate_unfetched save_path total_size :
  steps (extends unfetched) (allocate save_path total_size).
Proof.
  unfold allocate, os_makedirs, open_write, truncate, unfetched.
  steps_extends.
Qed.

Lemma allocate_unverified save_path total_size :
  steps (extends unverified) (allocate save_path total_size).
Proof.
  unfold allocate, os_makedirs, open_write, truncate, unverified.
  steps_extends.
Qed.

Lemma os_makedirs_ok p w w1 :
  os_makedirs p true w = (Ok tt, w1) →
  isdir w1 p = true ∧ files w1 = files w
  ∧ trace w1 = trace w ++ [EvMakedirs p].
Proof.
  unfold os_makedirs, bind, emit, get_world. simpl.
  case_bool_decide; [by intros [=]|].
  destruct (isfile _ p) eqn:Hf; [by intros [=]|].
  destruct (isdir _ p) eqn:Hd.
  - intros [= <-]. simpl. split; [|done].
    unfold isdir in *. simpl in Hd. done.
  - destruct (existsb _ _); [by intros [=]|].
    intros [= <-]. simpl. split; [|done].
    unfold isdir. simpl. apply bool_decide_eq_true_2. right. set_solver.
Qed.

Lemma open_write_ok p w w1 :
  open_write p w = (Ok tt, w1) →
  files w1 = <[p := []]> (files w) ∧ dirs w1 = dirs w
  ∧ trace w1 = trace w ++ [EvOpenWrite p].
Proof.
  unfold open_write, bind, emit, get_world. simpl.
  destruct (isdir _ p); [by intros [=]|].
  destruct (_ || _); [|by intros [=]].
  by intros [= <-].
Qed.

Lemma truncate_ok p size w w1 :
  truncate p size w = (Ok tt, w1) →
  0 ≤ size
  ∧ files w1 = <[p := zeros (Z.to_nat size)]> (files w) ∧ dirs w1 = dirs w
  ∧ trace w1 = trace w ++ [EvTruncate p size].
Proof.
  unfold truncate, bind, emit, get_world. simpl.
  case_bool_decide; [by intros [=]|].
  intros [= <-]. simpl. split; [lia|done].
Qed.

(** A successful allocation leaves the parent directory in place and the
    destination file holding exactly [total_size] zero bytes. *)
Lemma allocate_ok save_path total_size w w1 :
  allocate save_path total_size w = (Ok tt, w1) →
  isdir w1 (dirname save_path) = true
  ∧ files w1 !! save_path = Some (zeros (Z.to_nat total_size))
  ∧ trace w1 = trace w ++ [EvMakedirs (dirname save_path);
                           EvOpenWrite save_path;
                           EvTruncate save_path total_size].
Proof.
  unfold allocate.
  intros [([] & wa & Ha & H)|(? & _ & [=])]%bind_inv.
  apply bind_inv in H as [([] & wb & Hb & Hc)|(? & _ & [=])].
  apply os_makedirs_ok in Ha as (Hdir & Hfa & Hta).
  apply open_write_ok in Hb as (Hfb & Hdb & Htb).
  apply truncate_ok in Hc as (_ & Hfc & Hdc & Htc).
  split; [|split].
  - unfold isdir in *. rewrite Hdc, Hdb. done.
  - rewrite Hfc. apply lookup_insert_eq.
  - rewrite Htc, Htb, Hta. by rewrite <- !app_assoc.
Qed.

(** C8: when size discovery reports no size (no [Content-Length] header,
    or a zero one), [download_file] raises: it has then issued its one
    size request and logged the error, the files and directories are
    untouched and no fetcher was started.  When a positive size is
    reported, either the allocation raises, and [download_file] raises
    with it before any fetcher is started, or the fetchers and what follows
    them run from a world in which the parent directory exists, the
    destination file holds exactly [total_size] (zero) bytes, and no ranged
    request has been issued yet. *)
Theorem size_discovery_gates_allocation env url save_path hashes num_threads w :
  (probe_of env url = ProbeOk HdrAbsent
   ∨ probe_of env url = ProbeOk (HdrInt 0) →
   download_file env url save_path hashes num_threads w
   = (Raise (ValueError MsgNoSize),
      World (files w) (dirs w)
        (trace w ++ [EvUrlopen url None;
                     EvLog ERROR (LogDlUnexpected (ValueError MsgNoSize))])))
  ∧ (∀ total_size,
       0 < total_size →
       probe_of env url = ProbeOk (HdrInt total_size) →
       match allocate save_path total_size
               (World (files w) (dirs w)
                  (trace w ++ [EvUrlopen url None;
                               EvLog INFO (LogTotalSize total_size)])) with
       | (Raise e, w1) =>
           ∃ w', download_file env url save_path hashes num_threads w
                 = (Raise e, w')
                 ∧ extends unfetched w w'
       | (Ok _, w1) =>
           isdir w1 (dirname save_path) = true
           ∧ files w1 !! save_path = Some (zeros (Z.to_nat total_size))
           ∧ Z.of_nat (length (zeros (Z.to_nat total_size))) = total_size
           ∧ trace w1
             = trace w ++ [EvUrlopen url None;
                           EvLog INFO (LogTotalSize total_size);
                           EvMakedirs (dirname save_path);
                           EvOpenWrite save_path;
                           EvTruncate save_path total_size]
           ∧ download_file env url save_path hashes num_threads w
             = try_except
                 ((fetch_all env url save_path total_size num_threads ;;'
                   print (PrintDownloaded save_path) ;;'
                   log INFO LogDownloadCompleted) ;;'
                  verify save_path hashes)
                 download_handler w1
       end).
Proof.
  split.
  - intros Hprobe.
    unfold download_file, download_file_body, download_phase, try_except,
      bind.
    rewrite (size_discovery_none env url w Hprobe). simpl.
    unfold download_handler, bind, log, emit, raise. simpl.
    by rewrite <- app_assoc.
  - intros total_size Hpos Hprobe.
    assert (Hstart : ∀ rest : Z → M unit,
      try_except
        ((total_size ←' size_discovery env url ;;
          log INFO (LogTotalSize total_size) ;;'
          allocate save_path total_size ;;' rest total_size) ;;'
         verify save_path hashes) download_handler w
      = try_except
          ((allocate save_path total_size ;;' rest total_size) ;;'
           verify save_path hashes) download_handler
          (World (files w) (dirs w)
             (trace w ++ [EvUrlopen url None;
                          EvLog INFO (LogTotalSize total_size)]))).
    { intros rest. unfold try_except, bind at 1 2 3.
      rewrite (size_discovery_some env url w total_size Hprobe) by lia.
      unfold log, emit at 1. simpl. rewrite <- app_assoc. done. }
    destruct (allocate save_path total_size _) as [[[]|e] w1] eqn:Halloc.
    + pose proof (allocate_ok _ _ _ _ Halloc) as (Hdir & Hfile & Htr).
      split; [done|]. split; [done|].
      split. { unfold zeros. rewrite length_replicate. lia. }
      split. { rewrite Htr. simpl. by rewrite <- app_assoc. }
      unfold download_file, download_file_body, download_phase.
      rewrite (Hstart (λ total_size,
        fetch_all env url save_path total_size num_threads ;;'
        print (PrintDownloaded save_path) ;;'
        log INFO LogDownloadCompleted)).
      unfold try_except, bind at 1 2. rewrite Halloc. done.
    + assert (Hdl : download_file env url save_path hashes num_threads w
                    = download_handler e w1).
      { unfold download_file, download_file_body, download_phase.
        rewrite (Hstart (λ total_size,
          fetch_all env url save_path total_size num_threads ;;'
          print (PrintDownloaded save_path) ;;'
          log INFO LogDownloadCompleted)).
        unfold try_except, bind at 1 2. rewrite Halloc. done. }
      destruct (download_handler e w1) as [r w'] eqn:Hh.
      assert (r = Raise e) as ->.
      { unfold download_handler in Hh.
        apply bind_inv in Hh as [(? & ? & _ & [= <- _])|(? & Hl & _)];
          [done|].
        exfalso. revert Hl. unfold log, emit.
        by destruct (is_HTTPError e), (is_URLError e), (is_IOError e). }
      exists w'. split; [done|].
      apply (extends_trans _ _ (World (files w) (dirs w)
               (trace w ++ [EvUrlopen url None;
                            EvLog INFO (LogTotalSize total_size)]))).
      { exists [EvUrlopen url None; EvLog INFO (LogTotalSize total_size)].
        simpl. split; [done|]. unfold unfetched.
        repeat constructor; simpl; tauto. }
      apply (extends_trans _ _ w1).
      { eapply allocate_unfetched. exact Halloc. }
      revert Hh. generalize w1 (@Raise unit e) w'.
        change (steps (extends unfetched) (download_handler e)).
        unfold download_handler, log, unfetched. steps_extends.
Qed.

Lemma size_discovery_gates_allocation_witness :
  download_file sizeless_env ctxusb_url ctxusb_path (hashes_of plain_digest)
                4 empty_world
  = (Raise (ValueError MsgNoSize),
     World ∅ ∅ [EvUrlopen ctxusb_url None;
                EvLog ERROR (LogDlUnexpected (ValueError MsgNoSize))])
  ∧ ∃ w1,
      allocate ctxusb_path 8
        (World ∅ ∅ [EvUrlopen ctxusb_url None; EvLog INFO (LogTotalSize 8)])
      = (Ok tt, w1)
      ∧ files w1 !! ctxusb_path = Some (zeros 8)
      ∧ isdir w1 "/temp/packages" = true.
Proof.
  split.
  - exact (proj1 (size_discovery_gates_allocation sizeless_env ctxusb_url
                    ctxusb_path (hashes_of plain_digest) 4 empty_world)
                 (or_introl eq_refl)).
  - pose proof (proj2 (size_discovery_gates_allocation healthy_env ctxusb_url
                         ctxusb_path (hashes_of plain_digest) 4 empty_world)
                      8 ltac:(lia) eq_refl) as H.
    simpl in H.
    destruct (allocate ctxusb_path 8 _) as [[[]|e] w1] eqn:Halloc.
    + exists w1. destruct H as (Hdir & Hfile & _).
      split; [reflexivity|]. split; [exact Hfile|exact Hdir].
    + vm_compute in Halloc. discriminate Halloc.
Defined.

(** ** Verification *)

Lemma download_phase_unverified env url save_path num_threads :
  steps (extends unverified) (download_phase env url save_path num_threads).
Proof.
  unfold download_phase, print, log.
  steps_extends_with
    ltac:(first [ apply size_discovery_unverified
                | apply allocate_unverified
                | apply fetch_all_unverified
                | apply emit_extends; unfold unverified; simpl; tauto ]).
Qed.

(** The handlers of [download_file] on an [Exception]: one error record,
    then the same exception. *)
Lemma download_handler_exception msg w :
  download_handler (Exception msg) w
  = (Raise (Exception msg),
     World (files w) (dirs w)
       (trace w ++ [EvLog ERROR (LogDlUnexpected (Exception msg))])).
Proof. done. Qed.

Lemma extends_log_unverified w lvl r :
  extends unverified w (World (files w) (dirs w) (trace w ++ [EvLog lvl r])).
Proof.
  exists [EvLog lvl r]. split; [done|]. apply Forall_singleton.
  unfold unverified. simpl. tauto.
Qed.

Lemma compute_sha256_some p w content :
  files w !! p = Some content →
  compute_sha256 p w = (Ok (Some (str_lower (hexdigest (sha256 content)))), w).
Proof. intros H. unfold compute_sha256, bind, get_world. by rewrite H. Qed.

Lemma compute_sha256_none p w :
  files w !! p = None →
  compute_sha256 p w
  = (Ok None,
     World (files w) (dirs w)
       (trace w ++ [EvLog ERROR (LogHashFailed p (OSError "open: no such file"))])).
Proof. intros H. unfold compute_sha256, bind, get_world. by rewrite H. Qed.

(** C4: once the download phase has completed, [download_file] looks the
    basename of the destination up in the expected hashes and compares
    the lowercase hexadecimal SHA-256 of the destination file with the
    entry.  With no entry, with a file that cannot be hashed, or with a
    digest that differs, it raises an [Exception] naming the cause and the
    hash is never reported as verified; only with an equal digest does it
    return, reporting the verified hash. *)
Theorem verification_rejects env url save_path hashes num_threads w w1 :
  download_phase env url save_path num_threads w = (Ok tt, w1) →
  let filename := basename save_path in
  match hashes !! filename with
  | None =>
      ∃ w', download_file env url save_path hashes num_threads w
            = (Raise (Exception (MsgNoExpectedHash filename (dom hashes))), w')
            ∧ extends unverified w w'
  | Some expected =>
      match files w1 !! save_path with
      | None =>
          ∃ w', download_file env url save_path hashes num_threads w
                = (Raise (Exception (MsgHashFailed save_path)), w')
                ∧ extends unverified w w'
      | Some content =>
          let computed := str_lower (hexdigest (sha256 content)) in
          (computed ≠ expected →
           ∃ w', download_file env url save_path hashes num_threads w
                 = (Raise (Exception
                             (MsgHashMismatch save_path expected computed)),
                    w')
                 ∧ extends unverified w w')
          ∧ (computed = expected →
             download_file env url save_path hashes num_threads w
             = (Ok tt,
                World (files w1) (dirs w1)
                  (trace w1 ++ [EvPrint (PrintHashVerified filename
                                           computed)])))
      end
  end.
Proof.
  intros Hphase filename.
  pose proof (download_phase_unverified _ _ _ _ _ _ _ Hphase) as Hext.
  assert (Hdl : download_file env url save_path hashes num_threads w
                = try_except (verify save_path hashes) download_handler w1).
  { unfold download_file, download_file_body, try_except, bind.
    by rewrite Hphase. }
  rewrite Hdl. unfold try_except, verify. fold filename.
  destruct (hashes !! filename) as [expected|].
  - destruct (files w1 !! save_path) as [content|] eqn:Hfile.
    + unfold bind. rewrite (compute_sha256_some _ _ _ Hfile).
      split.
      * intros Hne. rewrite bool_decide_eq_true_2 by done.
        unfold raise. rewrite download_handler_exception.
        eexists. split; [done|].
        eapply extends_trans; [exact Hext|apply extends_log_unverified].
      * intros Heq. rewrite bool_decide_eq_false_2 by (intros ?; done).
        done.
    + unfold bind. rewrite (compute_sha256_none _ _ Hfile).
      unfold raise. rewrite download_handler_exception.
      eexists. split; [done|]. simpl.
      eapply extends_trans; [exact Hext|].
      eapply extends_trans; [apply extends_log_unverified|].
      apply (extends_log_unverified
               (World (files w1) (dirs w1) (trace w1 ++ [_]))).
  - unfold raise. rewrite download_handler_exception.
    eexists. split; [done|].
    eapply extends_trans; [exact Hext|apply extends_log_unverified].
Qed.

(** ** download_file: what reaches the caller *)

Lemma download_file_sized env url save_path hashes num_threads w total_size :
  probe_of env url = ProbeOk (HdrInt total_size) → total_size ≠ 0 →
  download_file env url save_path hashes num_threads w
  = try_except
      ((allocate save_path total_size ;;'
        fetch_all env url save_path total_size num_threads ;;'
        print (PrintDownloaded save_path) ;;'
        log INFO LogDownloadCompleted) ;;'
       verify save_path hashes)
      download_handler (sized url total_size w).
Proof.
  intros Hprobe Hne.
  unfold download_file, download_file_body, download_phase, try_except.
  unfold bind at 1 2 3.
  rewrite (size_discovery_some env url w total_size Hprobe Hne).
  unfold log at 1, emit at 1. simpl. unfold sized. by rewrite <- app_assoc.
Qed.

Lemma download_phase_sized env url save_path num_threads w total_size :
  probe_of env url = ProbeOk (HdrInt total_size) → total_size ≠ 0 →
  download_phase env url save_path num_threads w
  = (allocate save_path total_size ;;'
     fetch_all env url save_path total_size num_threads ;;'
     print (PrintDownloaded save_path) ;;'
     log INFO LogDownloadCompleted) (sized url total_size w).
Proof.
  intros Hprobe Hne. unfold download_phase. unfold bind at 1 2.
  rewrite (size_discovery_some env url w total_size Hprobe Hne).
  unfold log at 1, emit at 1. simpl. unfold sized. by rewrite <- app_assoc.
Qed.

(** The handlers of [download_file] raise what they caught. *)
Lemma download_handler_reraises e w :
  ∃ w', download_handler e w = (Raise e, w').
Proof.
  unfold download_handler, bind, log, emit, raise.
  destruct (is_HTTPError e), (is_URLError e), (is_IOError e); eauto.
Qed.

(** Verification raises nothing but an [Exception]. *)
Lemma verify_raises_exception save_path hashes w e w' :
  verify save_path hashes w = (Raise e, w') → ∃ msg, e = Exception msg.
Proof.
  unfold verify. destruct (hashes !! basename save_path) as [expected|].
  - destruct (files w !! save_path) as [content|] eqn:Hfile.
    + unfold bind. rewrite (compute_sha256_some _ _ _ Hfile).
      case_bool_decide.
      * intros [= <- _]. eauto.
      * by intros [=].
    + unfold bind. rewrite (compute_sha256_none _ _ Hfile).
      intros [= <- _]. eauto.
  - intros [= <- _]. eauto.
Qed.

(** X6: the errors of the fetchers stay inside them.  With at least one
    worker, a reported size and a successful allocation, the download
    phase of [download_file] returns normally and reports the file as
    downloaded whatever the ranged requests answer (the handlers of
    [download_chunk] log and return, so [future.result()] has nothing to
    raise); the only exceptions the call can then raise are those of the
    verification. *)
Theorem fetch_errors_stay_inside env url save_path hashes num_threads w
    total_size w1 :
  0 < num_threads →
  probe_of env url = ProbeOk (HdrInt total_size) → total_size ≠ 0 →
  allocate save_path total_size (sized url total_size w) = (Ok tt, w1) →
  (∃ w2 evs,
     download_phase env url save_path num_threads w = (Ok tt, w2)
     ∧ trace w2 = trace w1 ++ evs ++ [EvPrint (PrintDownloaded save_path);
                                      EvLog INFO LogDownloadCompleted])
  ∧ ∀ e w', download_file env url save_path hashes num_threads w
            = (Raise e, w') →
            ∃ msg, e = Exception msg.
Proof.
  intros Hn Hprobe Hne Halloc.
  destruct (fetch_all_returns env url save_path total_size num_threads w1 Hn)
    as (wf & Hfetch).
  destruct (fetch_all_unverified _ _ _ _ _ _ _ _ Hfetch) as (evs & Hevs & _).
  assert (Hphase : download_phase env url save_path num_threads w
    = (Ok tt, World (files wf) (dirs wf)
                (trace wf ++ [EvPrint (PrintDownloaded save_path);
                              EvLog INFO LogDownloadCompleted]))).
  { rewrite (download_phase_sized _ _ _ _ _ _ Hprobe Hne).
    rewrite (bind_ok _ _ _ _ _ Halloc), (bind_ok _ _ _ _ _ Hfetch).
    unfold bind, print, log, emit. simpl. by rewrite <- app_assoc. }
  split.
  - eexists _, evs. split; [exact Hphase|]. simpl.
    by rewrite Hevs, <- app_assoc.
  - intros e w'. unfold download_file, download_file_body, try_except.
    rewrite (bind_ok _ _ _ _ _ Hphase).
    destruct (verify _ _ _) as [[[]|e0] wv] eqn:Hv; [by intros [=]|].
    destruct (download_handler_reraises e0 wv) as (wh & ->).
    intros [= <- _]. by eapply verify_raises_exception.
Qed.

Lemma fetch_errors_stay_inside_witness :
  ∃ w1 w2 evs,
    allocate ctxusb_path 8 (sized ctxusb_url 8 empty_world) = (Ok tt, w1)
    ∧ ranged zero_gap_env ctxusb_url 2 3 = RangeFail (HTTPError 416)
    ∧ download_phase zero_gap_env ctxusb_url ctxusb_path 4 empty_world
      = (Ok tt, w2)
    ∧ trace w2 = trace w1 ++ evs ++ [EvPrint (PrintDownloaded ctxusb_path);
                                     EvLog INFO LogDownloadCompleted].
Proof.
  eexists.
  assert (Halloc : allocate ctxusb_path 8 (sized ctxusb_url 8 empty_world)
                   = (Ok tt, _)) by (vm_compute; reflexivity).
  destruct (fetch_errors_stay_inside zero_gap_env ctxusb_url ctxusb_path
              (hashes_of gapped_digest) 4 empty_world 8 _
              ltac:(lia) eq_refl ltac:(lia) Halloc)
    as [(w2 & evs & Hphase & Htrace) _].
  exists w2, evs. split; [exact Halloc|]. split; [reflexivity|].
  split; [exact Hphase|exact Htrace].
Defined.

(** X7: called without a worker, [download_file] fails after it has
    allocated the destination, and leaves the zero-filled file behind. *)
Theorem download_file_without_workers env url save_path hashes num_threads w
    total_size w1 :
  num_threads ≤ 0 →
  probe_of env url = ProbeOk (HdrInt total_size) → total_size ≠ 0 →
  allocate save_path total_size (sized url total_size w) = (Ok tt, w1) →
  download_file env url save_path hashes num_threads w
  = (Raise (no_worker_error num_threads),
     World (files w1) (dirs w1)
       (trace w1
        ++ [EvLog ERROR (LogDlUnexpected (no_worker_error num_threads))]))
  ∧ files w1 !! save_path = Some (zeros (Z.to_nat total_size)).
Proof.
  intros Hn Hprobe Hne Halloc. split.
  - rewrite (download_file_sized _ _ _ _ _ _ _ Hprobe Hne).
    unfold try_except. unfold bind at 1 2. rewrite Halloc.
    unfold fetch_all, no_worker_error. case_bool_decide as H0; [done|].
    rewrite bool_decide_eq_true_2 by done. done.
  - by apply allocate_ok in Halloc as (_ & ? & _).
Qed.

Lemma download_file_without_workers_witness :
  ∃ w1 w',
    download_file healthy_env ctxusb_url ctxusb_path (hashes_of plain_digest)
                  0 empty_world
    = (Raise ZeroDivisionError, w')
    ∧ files w' = files w1
    ∧ files w1 !! ctxusb_path = Some (zeros 8).
Proof.
  eexists.
  assert (Halloc : allocate ctxusb_path 8 (sized ctxusb_url 8 empty_world)
                   = (Ok tt, _)) by (vm_compute; reflexivity).
  destruct (download_file_without_workers healthy_env ctxusb_url ctxusb_path
              (hashes_of plain_digest) 0 empty_world 8 _
              ltac:(lia) eq_refl ltac:(lia) Halloc) as [Hdl Hfile].
  eexists. split; [exact Hdl|]. split; [reflexivity|exact Hfile].
Defined.

(** What a normal return of [download_file] tells. *)
Lemma download_file_ok_inv env url save_path hashes num_threads w w' :
  download_file env url save_path hashes num_threads w = (Ok tt, w') →
  ∃ content,
    files w' !! save_path = Some content
    ∧ hashes !! basename save_path
      = Some (str_lower (hexdigest (sha256 content)))
    ∧ last (trace w')
      = Some (EvPrint (PrintHashVerified
                         (basename save_path)
                         (str_lower (hexdigest (sha256 content))))).
Proof.
  unfold download_file, download_file_body.
  intros [([] & Hbody & _)|(e & w1 & _ & Hh)]%try_except_inv.
  - apply bind_inv in Hbody as [([] & w1 & _ & Hv)|(e & _ & [=])].
    revert Hv. unfold verify.
    destruct (hashes !! basename save_path) as [expected|]; [|by intros [=]].
    destruct (files w1 !! save_path) as [content|] eqn:Hfile.
    + unfold bind. rewrite (compute_sha256_some _ _ _ Hfile).
      case_bool_decide as Hcmp; [by intros [=]|].
      intros [= <-]. exists content. simpl. split; [done|].
      split; [by rewrite Hcmp|by rewrite last_snoc].
    + unfold bind. rewrite (compute_sha256_none _ _ Hfile). by intros [=].
  - destruct (download_handler_reraises e w1) as (wh & Heq).
    rewrite Heq in Hh. by inversion Hh.
Qed.

(** X8: [download_file] returns normally only when the destination file
    exists and its lowercase hexadecimal SHA-256 is the entry stored under
    its basename; the call then ends with the report of that hash. *)
Theorem download_file_ok_verified env url save_path hashes num_threads w w' :
  download_file env url save_path hashes num_threads w = (Ok tt, w') →
  ∃ content,
    files w' !! save_path = Some content
    ∧ hashes !! basename save_path
      = Some (str_lower (hexdigest (sha256 content)))
    ∧ last (trace w')
      = Some (EvPrint (PrintHashVerified
                         (basename save_path)
                         (str_lower (hexdigest (sha256 content))))).
Proof. apply download_file_ok_inv. Qed.

Lemma download_file_ok_verified_witness :
  ∃ w' content,
    download_file healthy_env ctxusb_url ctxusb_path (hashes_of plain_digest)
                  4 empty_world = (Ok tt, w')
    ∧ files w' !! ctxusb_path = Some content
    ∧ hashes_of plain_digest !! basename ctxusb_path
      = Some (str_lower (hexdigest (sha256 content))).
Proof.
  eexists.
  assert (Hdl : download_file healthy_env ctxusb_url ctxusb_path
                  (hashes_of plain_digest) 4 empty_world = (Ok tt, _))
    by (vm_compute; reflexivity).
  destruct (download_file_ok_verified _ _ _ _ _ _ _ Hdl)
    as (content & Hfile & Hhash & _).
  exists content. split; [exact Hdl|]. split; [exact Hfile|exact Hhash].
Defined.

(** ** The batch *)



Lemma verification_rejects_witness :
  ∃ w1 w',
    download_phase lost_range_env ctxusb_url ctxusb_path 4 empty_world
    = (Ok tt, w1)
    ∧ download_file lost_range_env ctxusb_url ctxusb_path
                    (∅ : gmap string string) 4 empty_world
      = (Raise (Exception (MsgNoExpectedHash (basename ctxusb_path) (dom (∅ : gmap string string)))),
         w')
    ∧ extends unverified empty_world w'.
Proof.
  eexists.
  assert (Hphase : download_phase lost_range_env ctxusb_url ctxusb_path 4
                     empty_world = (Ok tt, _)) by (vm_compute; reflexivity).
  pose proof (verification_rejects lost_range_env ctxusb_url ctxusb_path ∅ 4
                empty_world _ Hphase) as H.
  cbv zeta in H. rewrite lookup_empty in H.
  destruct H as (w' & Hdl & Hext).
  exists w'. split; [exact Hphase|]. split; [exact Hdl|exact Hext].
Defined.

(** ** The footprint of download_file *)

Lemma touches_only_refl url p w : touches_only url p w w.
Proof. split; [done|]. split; [done|apply extends_refl]. Qed.

Lemma touches_only_trans url p w1 w2 w3 :
  touches_only url p w1 w2 → touches_only url p w2 w3 →
  touches_only url p w1 w3.
Proof.
  intros (Hf1 & Hd1 & He1) (Hf2 & Hd2 & He2). split; [|split].
  - intros q Hq. by rewrite Hf2, Hf1.
  - set_solver.
  - by eapply extends_trans.
Qed.

Lemma emit_touches url p ev :
  transfer_event url p ev → steps (touches_only url p) (emit ev).
Proof.
  intros Hev w r w' Heq. split; [|split].
  - by inversion Heq.
  - by inversion Heq.
  - by eapply emit_extends.
Qed.

Ltac steps_touches_with leaf :=
  repeat first
    [ leaf
    | apply steps_ret; [apply touches_only_refl]
    | apply steps_raise; [apply touches_only_refl]
    | apply steps_get_world; [apply touches_only_refl]
    | apply emit_touches; simpl; first [done | tauto]
    | apply steps_bind; [apply touches_only_trans| |intros ?]
    | apply steps_try_except; [apply touches_only_trans| |intros ?]
    | match goal with
      | |- steps _ (if ?b then _ else _) => destruct b
      | |- steps _ (match ?x with _ => _ end) => destruct x
      | |- steps _ (let '(_, _) := ?x in _) => destruct x
      end ].

Lemma os_makedirs_touches url p exist_ok :
  steps (touches_only url p) (os_makedirs (dirname p) exist_ok).
Proof.
  intros w r w'. unfold os_makedirs, bind, emit, get_world. simpl.
  assert (Hev : ∀ ds, dirs w ⊆ ds →
    touches_only url p w
      (World (files w) ds (trace w ++ [EvMakedirs (dirname p)]))).
  { intros ds Hds. split; [done|]. split; [done|].
    exists [EvMakedirs (dirname p)]. split; [done|].
    by apply Forall_singleton. }
  destruct (bool_decide _); [intros [= _ <-]; by apply Hev|].
  destruct (isfile _ _); [intros [= _ <-]; by apply Hev|].
  destruct (isdir _ _).
  { destruct exist_ok; intros [= _ <-]; by apply Hev. }
  destruct (existsb _ _); intros [= _ <-]; apply Hev; [done|].
  simpl. set_solver.
Qed.

Lemma open_write_touches url p : steps (touches_only url p) (open_write p).
Proof.
  intros w r w'. unfold open_write, bind, emit, get_world. simpl.
  repeat case_match; intros [= _ <-]; (split; [|split]); simpl;
    try done;
    try (intros q Hq; by rewrite lookup_insert_ne);
    (exists [EvOpenWrite p]; split; [done|]; by apply Forall_singleton).
Qed.

Lemma truncate_touches url p size : steps (touches_only url p) (truncate p size).
Proof.
  intros w r w'. unfold truncate, bind, emit, get_world. simpl.
  repeat case_match; intros [= _ <-]; (split; [|split]); simpl;
    try done;
    try (intros q Hq; by rewrite lookup_insert_ne);
    (exists [EvTruncate p size]; split; [done|]; by apply Forall_singleton).
Qed.

Lemma write_file_at_touches url p offset data :
  steps (touches_only url p) (write_file_at p offset data).
Proof.
  intros w r w'. unfold write_file_at, bind, emit, get_world. simpl.
  repeat case_match; intros [= _ <-]; try apply touches_only_refl;
    (split; [|split]); simpl; try done;
    try (intros q Hq; by rewrite lookup_insert_ne);
    (exists [EvWrite p offset data]; split; [done|];
     by apply Forall_singleton).
Qed.

Lemma chunk_step_touches env t f :
  steps (touches_only (t_url t) (t_path t)) (chunk_step env t f).
Proof.
  unfold chunk_step, open_range, read_turn, chunk_handler, log.
  steps_touches_with ltac:(apply write_file_at_touches).
Qed.

Lemma run_fetcher_touches env t (fuel : nat) : ∀ f,
  steps (touches_only (t_url t) (t_path t)) (run_fetcher env t fuel f).
Proof.
  induction fuel as [|k IH]; intros f; simpl.
  - apply steps_ret, touches_only_refl.
  - destruct f; try (apply steps_ret, touches_only_refl);
      (apply steps_bind; [apply touches_only_trans
                         |apply chunk_step_touches|intros ?; apply IH]).
Qed.

Lemma run_schedule_touches env url p sched : ∀ pool,
  pool_for url p pool →
  steps (touches_only url p) (run_schedule env sched pool).
Proof.
  induction sched as [|i sched IH]; intros pool Hpool; simpl.
  - apply steps_ret, touches_only_refl.
  - destruct (pool !! i) as [[t f]|] eqn:Hi; [|by apply IH].
    destruct (Forall_lookup_1 _ _ _ _ Hpool Hi) as [<- <-].
    apply steps_bind; [apply touches_only_trans|apply chunk_step_touches|].
    intros f'. apply IH. by apply Forall_insert.
Qed.

Lemma join_all_touches env url p pool :
  pool_for url p pool → steps (touches_only url p) (join_all env pool).
Proof.
  induction pool as [|[t f] pool IH]; intros Hpool; simpl.
  - apply steps_ret, touches_only_refl.
  - apply Forall_cons in Hpool as [[<- <-] Hpool].
    apply steps_bind; [apply touches_only_trans
                      |apply run_fetcher_touches|intros ?; by apply IH].
Qed.

(** The tasks of a pool are those it started with. *)
Lemma run_schedule_tasks env sched : ∀ pool w pool' w',
  run_schedule env sched pool w = (Ok pool', w') → pool'.*1 = pool.*1.
Proof.
  induction sched as [|i sched IH]; intros pool w pool' w'; simpl.
  - by intros [= <- _].
  - destruct (pool !! i) as [[t f]|] eqn:Hi; [|apply IH].
    intros [(f' & w1 & _ & Hrest)|(? & _ & [=])]%bind_inv.
    rewrite (IH _ _ _ _ Hrest), list_fmap_insert. simpl.
    apply list_insert_id. by rewrite list_lookup_fmap, Hi.
Qed.

Lemma fetch_all_touches env url p total_size num_threads :
  steps (touches_only url p) (fetch_all env url p total_size num_threads).
Proof.
  unfold fetch_all.
  destruct (bool_decide (num_threads = 0));
    [apply steps_raise, touches_only_refl|].
  destruct (bool_decide (num_threads ≤ 0));
    [apply steps_raise, touches_only_refl|].
  intros w r w' [(pool' & w1 & Hs & Hj)|(e & Hs & _)]%bind_inv.
  - eapply touches_only_trans.
    + eapply run_schedule_touches; [|exact Hs].
      apply Forall_fmap, Forall_true. done.
    + eapply join_all_touches; [|exact Hj].
      apply run_schedule_tasks in Hs. unfold pool_for.
      apply (Forall_fmap fst (λ t, t_url t = url ∧ t_path t = p)).
      rewrite Hs. apply Forall_fmap, Forall_fmap, Forall_true. done.
  - eapply run_schedule_touches; [|exact Hs].
    apply Forall_fmap, Forall_true. done.
Qed.

Lemma compute_sha256_touches url p :
  steps (touches_only url p) (compute_sha256 p).
Proof.
  intros w r w'. unfold compute_sha256, bind, get_world.
  destruct (files w !! p); [intros [= _ <-]; apply touches_only_refl|].
  unfold bind, log, emit, ret. intros [= _ <-].
  split; [done|]. split; [done|]. eexists [_]. split; [done|].
  by apply Forall_singleton.
Qed.

Lemma download_file_touches env url save_path hashes num_threads :
  steps (touches_only url save_path)
        (download_file env url save_path hashes num_threads).
Proof.
  unfold download_file, download_file_body, download_phase, size_discovery,
    allocate, verify, download_handler, print, log.
  steps_touches_with
    ltac:(first [ apply os_makedirs_touches | apply open_write_touches
                | apply truncate_touches | apply fetch_all_touches
                | apply compute_sha256_touches ]).
Qed.

(** X10: whatever the servers answer and however it ends, a call of
    [download_file] changes no file but its destination, removes no
    directory, sends its requests to its own URL only, and does nothing
    but request, create the parent directory, open, truncate and write the
    destination, log and report. *)
Theorem download_file_footprint env url save_path hashes num_threads w r w' :
  download_file env url save_path hashes num_threads w = (r, w') →
  (∀ q, q ≠ save_path → files w' !! q = files w !! q)
  ∧ dirs w ⊆ dirs w'
  ∧ ∃ evs, trace w' = trace w ++ evs
           ∧ Forall (transfer_event url save_path) evs.
Proof. apply download_file_touches. Qed.

Lemma download_file_footprint_witness :
  ∃ r w',
    download_file lost_range_env ctxusb_url ctxusb_path
                  (hashes_of plain_digest) 4 empty_world = (r, w')
    ∧ files w' !! icaclient_path = None
    ∧ ∃ evs, trace w' = evs ∧ Forall (transfer_event ctxusb_url ctxusb_path) evs.
Proof.
  eexists _, _.
  assert (Hdl : download_file lost_range_env ctxusb_url ctxusb_path
                  (hashes_of plain_digest) 4 empty_world = (_, _))
    by (vm_compute; reflexivity).
  destruct (download_file_footprint _ _ _ _ _ _ _ _ Hdl)
    as (Hfiles & _ & evs & Htrace & Hevs).
  split; [exact Hdl|]. split.
  - by rewrite (Hfiles icaclient_path).
  - exists evs. split; [exact Htrace|exact Hevs].
Defined.

(** ** Reassembly: the fetchers of a served file rebuild it *)

Lemma write_at_inside (c : bytes) (off : nat) (data : bytes) :
  (off + length data ≤ length c)%nat →
  length (write_at c off data) = length c
  ∧ ∀ k : nat,
      write_at c off data !! k
      = if decide (off ≤ k < off + length data)%nat
        then data !! (k - off)%nat else c !! k.
Proof.
  intros Hin. unfold write_at, zeros.
  replace (off - length c)%nat with 0%nat by lia. simpl. split.
  - rewrite !length_app, length_take, length_drop. lia.
  - intros k. destruct (decide (k < off)%nat) as [Hlt|Hge].
    + rewrite lookup_app_l by (rewrite length_take; lia).
      rewrite lookup_take_lt by done.
      by rewrite decide_False by lia.
    + rewrite lookup_app_r by (rewrite length_take; lia).
      rewrite length_take, Nat.min_l by lia.
      destruct (decide (k < off + length data)%nat) as [Hin'|Hout].
      * rewrite lookup_app_l by lia. by rewrite decide_True by lia.
      * rewrite lookup_app_r by lia. rewrite lookup_drop.
        rewrite decide_False by lia. f_equal. lia.
Qed.

Lemma slice_lookup (content : bytes) (off n j : nat) :
  (j < n)%nat → slice content off n !! j = content !! (off + j)%nat.
Proof.
  intros Hj. unfold slice. by rewrite lookup_take_lt, lookup_drop.
Qed.

Lemma slice_length (content : bytes) (off n : nat) :
  length (slice content off n) = (n `min` (length content - off))%nat.
Proof. unfold slice. by rewrite length_take, length_drop. Qed.

Lemma slice_rest (content : bytes) (off n : nat) (chunk rest : bytes) :
  slice content off n = chunk ++ rest →
  rest = slice content (off + length chunk) (n - length chunk)
  ∧ (off + length chunk ≤ length content ∨ chunk = [])%nat
  ∧ (length chunk ≤ n)%nat
  ∧ ∀ j : nat, (j < length chunk)%nat → chunk !! j = content !! (off + j)%nat.
Proof.
  intros Heq.
  assert (Hlen : (length chunk ≤ n `min` (length content - off))%nat).
  { rewrite <- slice_length, Heq, length_app. lia. }
  split; [|split; [|split]].
  - unfold slice in *.
    rewrite <- drop_drop, <- skipn_firstn_comm, Heq.
    by rewrite drop_app_length.
  - destruct chunk; [by right|]. simpl in Hlen. left. simpl. lia.
  - lia.
  - intros j Hj. rewrite <- (slice_lookup content off n j) by lia.
    rewrite Heq. by rewrite lookup_app_l.
Qed.

Lemma keeps_refl (content c : bytes) : keeps content c c.
Proof. by split. Qed.

Lemma keeps_trans (content c1 c2 c3 : bytes) :
  keeps content c1 c2 → keeps content c2 c3 → keeps content c1 c3.
Proof.
  intros [Hl1 Hk1] [Hl2 Hk2]. split; [congruence|].
  intros k Hk Hc. by apply Hk2, Hk1.
Qed.

Lemma agree_keeps (content c c' : bytes) a b :
  keeps content c c' → agree content c a b → agree content c' a b.
Proof. intros [_ Hk] Ha k Hab Hlt. apply Hk; [done|]. by apply Ha. Qed.

Lemma on_track_keeps (content c c' : bytes) t f :
  keeps content c c' → on_track content c t f → on_track content c' t f.
Proof.
  intros Hk [Hs Hf]. split; [done|]. destruct f as [|segs broken d|].
  - done.
  - destruct Hf as (? & ? & ? & Ha). split_and!; try done.
    by eapply agree_keeps.
  - by eapply agree_keeps.
Qed.

Lemma rewrites_refl p c w : files w !! p = Some c → rewrites p c c w w.
Proof.
  intros Hf. split; [done|]. split; [by rewrite insert_id|].
  split; [done|apply extends_refl].
Qed.

Lemma rewrites_trans p c1 c2 c3 w1 w2 w3 :
  rewrites p c1 c2 w1 w2 → rewrites p c2 c3 w2 w3 → rewrites p c1 c3 w1 w3.
Proof.
  intros (Hf1 & Hi1 & Hd1 & He1) (Hf2 & Hi2 & Hd2 & He2).
  split; [done|]. split; [by rewrite Hi2, Hi1, insert_insert_eq|].
  split; [congruence|by eapply extends_trans].
Qed.

Lemma rewrites_result p c c' w w' :
  rewrites p c c' w w' → files w' !! p = Some c'.
Proof. intros (_ & -> & _). apply lookup_insert_eq. Qed.

(** A world that differs by one quiet event. *)
Lemma rewrites_event p c w ev :
  files w !! p = Some c → quiet ev →
  rewrites p c c w (World (files w) (dirs w) (trace w ++ [ev])).
Proof.
  intros Hf Hq. split; [done|]. split; [by simpl; rewrite insert_id|].
  split; [done|]. exists [ev]. split; [done|]. by apply Forall_singleton.
Qed.

Lemma write_file_at_ok p offset data w c :
  files w !! p = Some c → 0 ≤ offset →
  write_file_at p offset data w
  = (Ok tt,
     World (<[p := write_at c (Z.to_nat offset) data]> (files w)) (dirs w)
           (trace w ++ [EvWrite p offset data])).
Proof.
  intros Hfile Hoff. unfold write_file_at, bind at 1, get_world.
  rewrite Hfile. by rewrite bool_decide_eq_false_2 by lia.
Qed.

Section reassembly.
Context (env : environment) (url p : string) (content : bytes).
Context (Hserved : honours_ranges env url content).

(** One step of a fetcher that is on track: it stays on track, what was
    in place stays in place, and it is closer to its return. *)
Lemma chunk_step_on_track t f w c :
  t_url t = url → t_path t = p →
  files w !! p = Some c → length c = length content →
  on_track content c t f →
  ∃ f' c' w',
    chunk_step env t f w = (Ok f', w')
    ∧ rewrites p c c' w w' ∧ keeps content c c'
    ∧ on_track content c' t f'
    ∧ (f ≠ Finished → (steps_bound env t f' < steps_bound env t f)%nat).
Proof using Hserved.
  destruct t as [u q s e]. simpl. intros -> -> Hfile Hlen [Hs Hf].
  simpl in Hs. destruct f as [|segs broken d|].
  - destruct (Hserved s e Hs) as (segs & Hr & Hj).
    exists (Reading segs None 0), c. eexists. split.
    { by apply chunk_step_pending_ok. }
    split; [by apply rewrites_event|]. split; [apply keeps_refl|].
    split.
    + split; [done|]. simpl. rewrite Z.add_0_r. split_and!; try done.
      intros k Hk. lia.
    + intros _. simpl. rewrite Hr. lia.
  - simpl in Hf. destruct Hf as (-> & Hd & Hj & Ha).
    unfold chunk_step, try_except, read_turn.
    destruct (response_read chunk_size segs) as [chunk segs'] eqn:Hread.
    destruct (response_read_spec _ _ _ _ chunk_size_pos Hread)
      as (Hjoin & Hsize & Hnil).
    destruct chunk as [|b chunk].
    + exists Finished, c. eexists. split; [reflexivity|].
      split; [by apply rewrites_event|]. split; [apply keeps_refl|].
      split; [|intros _; simpl; lia].
      split; [done|]. simpl. intros k Hk Hlt. apply Ha; [|done].
      specialize (Hnil eq_refl). rewrite Hnil in Hj.
      apply (f_equal length) in Hj. rewrite slice_length in Hj.
      simpl in Hj. lia.
    + rewrite Hj in Hjoin.
      apply slice_rest in Hjoin as (Hrest & Hfit & Hle & Hbytes).
      destruct Hfit as [Hfit|[=]].
      set (data := b :: chunk) in *.
      set (o := Z.to_nat (s + d)) in *.
      assert (Ho : Z.of_nat o = s + d) by (unfold o; lia). clearbody o.
      assert (Hdata : length data = S (length chunk)) by done.
      destruct (write_at_inside c o data ltac:(lia)) as [Hwl Hwk].
      exists (Reading segs' None (d + Z.of_nat (length data))),
             (write_at c o data).
      eexists. split.
      { rewrite (bind_ok _ _ _ _ _
                   (write_file_at_ok p
                      (s + (d + Z.of_nat (length data))
                       - Z.of_nat (length data))
                      data w c Hfile ltac:(lia))).
        replace (Z.to_nat (s + (d + Z.of_nat (length data))
                           - Z.of_nat (length data))) with o by lia.
        reflexivity. }
      assert (Hkeeps : keeps content c (write_at c o data)).
      { split; [done|]. intros k Hk Hc. rewrite Hwk.
        destruct (decide _) as [Hin|Hout]; [|done].
        rewrite Hbytes by lia. f_equal. lia. }
      split.
      { split; [done|]. split; [done|]. split; [done|].
        eexists [_]. split; [done|]. by apply Forall_singleton. }
      split; [done|]. split.
      * split; [done|]. simpl. split_and!; [done|lia| |].
        -- rewrite Hrest. f_equal; lia.
        -- intros k Hk Hlt. rewrite Hwk.
           destruct (decide _) as [Hin|Hout].
           ++ rewrite Hbytes by lia. f_equal. lia.
           ++ apply Ha; [lia|done].
      * intros _. simpl. rewrite !stream_bytes_join.
        rewrite Hj, Hrest, !slice_length. simpl in *. lia.
  - exists Finished, c, w. split; [done|].
    split; [by apply rewrites_refl|]. split; [apply keeps_refl|].
    split; [done|]. by intros [].
Qed.
(** A fetcher on track runs to its return within its bound, and has then
    put its whole range in place. *)
Lemma run_fetcher_on_track t : ∀ (fuel : nat) f w c,
  t_url t = url → t_path t = p →
  files w !! p = Some c → length c = length content →
  on_track content c t f →
  (steps_bound env t f ≤ fuel)%nat →
  ∃ c' w',
    run_fetcher env t fuel f w = (Ok Finished, w')
    ∧ rewrites p c c' w w' ∧ keeps content c c'
    ∧ on_track content c' t Finished.
Proof using Hserved.
  induction fuel as [|k IH]; intros f w c Hu Hp Hfile Hlen Hon Hfuel.
  - destruct (chunk_step_on_track t f w c Hu Hp Hfile Hlen Hon)
      as (f' & c' & w' & _ & _ & _ & _ & Hless).
    assert (f = Finished) as ->.
    { destruct f; [| |done]; (exfalso; assert (H := Hless ltac:(done)); lia). }
    exists c, w. split; [done|]. split; [by apply rewrites_refl|].
    split; [apply keeps_refl|done].
  - assert (Hcase : f = Finished ∨ f ≠ Finished)
      by (destruct f; [right|right|left]; done).
    destruct Hcase as [->|Hne].
    { exists c, w. split; [done|]. split; [by apply rewrites_refl|].
      split; [apply keeps_refl|done]. }
    destruct (chunk_step_on_track t f w c Hu Hp Hfile Hlen Hon)
      as (f' & c1 & w1 & Hstep & Hrw & Hkeep & Hon1 & Hless).
    assert (Hrun : run_fetcher env t (S k) f w = run_fetcher env t k f' w1).
    { destruct f; [| |done]; simpl; by rewrite (bind_ok _ _ _ _ _ Hstep). }
    destruct (IH f' w1 c1 Hu Hp (rewrites_result _ _ _ _ _ Hrw))
      as (c2 & w2 & Hrun2 & Hrw2 & Hkeep2 & Hon2).
    + destruct Hkeep as [-> _]. done.
    + done.
    + specialize (Hless Hne). lia.
    + exists c2, w2. split; [by rewrite Hrun|].
      split; [by eapply rewrites_trans|].
      split; [by eapply keeps_trans|done].
Qed.
Lemma pool_on_track_keeps c c' pool :
  keeps content c c' →
  pool_on_track url p content c pool → pool_on_track url p content c' pool.
Proof.
  intros Hk Hpool. eapply Forall_impl; [exact Hpool|].
  intros [t f] (? & ? & ?).
  split_and!; try done. by eapply on_track_keeps.
Qed.

(** However the threads are scheduled, the pool stays on track. *)
Lemma run_schedule_on_track sched : ∀ pool w c,
  files w !! p = Some c → length c = length content →
  pool_on_track url p content c pool →
  ∃ pool' c' w',
    run_schedule env sched pool w = (Ok pool', w')
    ∧ rewrites p c c' w w' ∧ keeps content c c'
    ∧ pool_on_track url p content c' pool'.
Proof using Hserved.
  induction sched as [|i sched IH]; intros pool w c Hfile Hlen Hpool; simpl.
  - exists pool, c, w. split; [done|]. split; [by apply rewrites_refl|].
    split; [apply keeps_refl|done].
  - destruct (pool !! i) as [[t f]|] eqn:Hi; [|by apply IH].
    destruct (Forall_lookup_1 _ _ _ _ Hpool Hi) as (Hu & Hp & Hon).
    simpl in Hu, Hp, Hon.
    destruct (chunk_step_on_track t f w c Hu Hp Hfile Hlen Hon)
      as (f' & c1 & w1 & Hstep & Hrw & Hkeep & Hon1 & _).
    rewrite (bind_ok _ _ _ _ _ Hstep).
    destruct (IH (<[i := (t, f')]> pool) w1 c1)
      as (pool' & c2 & w2 & Hrun & Hrw2 & Hkeep2 & Hpool2).
    + by eapply rewrites_result.
    + destruct Hkeep as [-> _]. done.
    + apply Forall_insert; [by eapply pool_on_track_keeps|done].
    + exists pool', c2, w2. split; [done|].
      split; [by eapply rewrites_trans|].
      split; [by eapply keeps_trans|done].
Qed.

(** Waiting for every fetcher of a pool on track leaves every range in
    place. *)
Lemma join_all_on_track : ∀ pool w c,
  files w !! p = Some c → length c = length content →
  pool_on_track url p content c pool →
  ∃ c' w',
    join_all env pool w = (Ok tt, w')
    ∧ rewrites p c c' w w' ∧ keeps content c c'
    ∧ Forall (λ t, agree content c' (t_start t) (t_end t + 1)) pool.*1.
Proof using Hserved.
  induction pool as [|[t f] pool IH]; intros w c Hfile Hlen Hpool; simpl.
  - exists c, w. split; [done|]. split; [by apply rewrites_refl|].
    split; [apply keeps_refl|done].
  - apply Forall_cons in Hpool as [(Hu & Hp & Hon) Hpool].
    simpl in Hu, Hp, Hon.
    destruct (run_fetcher_on_track t (steps_bound env t f) f w c
                Hu Hp Hfile Hlen Hon ltac:(done))
      as (c1 & w1 & Hrun & Hrw & Hkeep & Hon1).
    unfold finish. rewrite (bind_ok _ _ _ _ _ Hrun).
    destruct (IH w1 c1) as (c2 & w2 & Hjoin & Hrw2 & Hkeep2 & Hall).
    + by eapply rewrites_result.
    + destruct Hkeep as [-> _]. done.
    + by eapply pool_on_track_keeps.
    + exists c2, w2. split; [done|].
      split; [by eapply rewrites_trans|].
      split; [by eapply keeps_trans|].
      apply Forall_cons. split; [|done].
      eapply agree_keeps; [exact Hkeep2|]. by destruct Hon1.
Qed.
End reassembly.

Lemma plan_ranges_starts total n :
  0 ≤ total → 0 < n → Forall (λ r, 0 ≤ r.1) (plan_ranges total n).
Proof.
  intros Ht Hn. apply Forall_lookup_2. intros i r Hr.
  apply plan_ranges_lookup_inv in Hr as [_ ->].
  rewrite range_entry_fst. pose proof (chunk_nonneg total n Ht Hn). lia.
Qed.

(** Served from [content], the pool of [download_file] rebuilds [content]
    in the destination, under every schedule and for every number of
    workers. *)
Lemma fetch_all_rebuilds env url p content num_threads w c :
  0 < num_threads → content ≠ [] →
  honours_ranges env url content →
  files w !! p = Some c → length c = length content →
  ∃ w', fetch_all env url p (Z.of_nat (length content)) num_threads w
        = (Ok tt, w')
        ∧ files w' = <[p := content]> (files w)
        ∧ dirs w' = dirs w
        ∧ extends quiet w w'.
Proof.
  intros Hn Hne Hserved Hfile Hlen.
  assert (Htotal : 0 < Z.of_nat (length content)).
  { destruct content; [done|]. simpl. lia. }
  unfold fetch_all.
  rewrite bool_decide_eq_false_2 by lia.
  rewrite bool_decide_eq_false_2 by lia.
  set (ranges := plan_ranges (Z.of_nat (length content)) num_threads).
  set (pool := (λ r, (Task url p r.1 r.2, Pending)) <$> ranges).
  assert (Hpool : pool_on_track url p content c pool).
  { apply Forall_fmap.
    eapply Forall_impl;
      [apply (plan_ranges_starts (Z.of_nat (length content)) num_threads);
       lia|].
    intros r Hr. simpl. split_and!; done. }
  destruct (run_schedule_on_track env url p content Hserved
              (schedule env url) pool w c Hfile Hlen Hpool)
    as (pool' & c1 & w1 & Hrun & Hrw1 & Hkeep1 & Hpool1).
  rewrite (bind_ok _ _ _ _ _ Hrun).
  destruct (join_all_on_track env url p content Hserved pool' w1 c1)
    as (c2 & w2 & Hjoin & Hrw2 & Hkeep2 & Hall);
    [by eapply rewrites_result|by destruct Hkeep1 as [-> _]|done|].
  exists w2. split; [done|].
  pose proof (rewrites_trans _ _ _ _ _ _ _ Hrw1 Hrw2) as (_ & Hf & Hd & He).
  assert (c2 = content) as ->; [|done].
  apply list_eq. intros k.
  assert (Hlen2 : length c2 = length content).
  { destruct Hkeep2 as [-> _]. destruct Hkeep1 as [-> _]. done. }
  destruct (decide (k < length content)%nat) as [Hk|Hk].
  2: { rewrite !lookup_ge_None_2 by lia. done. }
  destruct (proj1 (plan_ranges_cover (Z.of_nat (length content)) num_threads
                     (Z.of_nat k) Htotal Hn) ltac:(lia))
    as (r & Hin & [Hlo Hhi]).
  rewrite (run_schedule_tasks _ _ _ _ _ _ Hrun) in Hall.
  unfold pool in Hall. rewrite <- list_fmap_compose in Hall.
  apply Forall_fmap in Hall.
  rewrite Forall_forall in Hall. specialize (Hall r Hin).
  simpl in Hall. apply Hall; [lia|done].
Qed.

Lemma allocate_quiet save_path total_size :
  steps (extends quiet) (allocate save_path total_size).
Proof.
  unfold allocate, os_makedirs, open_write, truncate. steps_extends.
Qed.


Lemma healthy_env_honours : honours_ranges healthy_env ctxusb_url plain_content.
Proof.
  intros start end_ Hs. eexists. split.
  - unfold healthy_env, artifact_env. cbn [ranged].
    rewrite bool_decide_eq_true_2 by done.
    rewrite bool_decide_eq_false_2; [reflexivity|]. intros [= ? ?]. lia.
  - simpl. rewrite app_nil_r. f_equal. lia.
Qed.


(** ** The script *)

Lemma os_makedirs_made p exist_ok w w1 :
  os_makedirs p exist_ok w = (Ok tt, w1) →
  isdir w1 p = true ∧ files w1 = files w
  ∧ trace w1 = trace w ++ [EvMakedirs p].
Proof.
  unfold os_makedirs, bind, emit, get_world. simpl.
  case_bool_decide; [by intros [=]|].
  destruct (isfile _ p) eqn:Hf; [by intros [=]|].
  destruct (isdir _ p) eqn:Hd.
  - destruct exist_ok; [|by intros [=]].
    intros [= <-]. simpl. split; [|done].
    unfold isdir in *. simpl in Hd. done.
  - destruct (existsb _ _); [by intros [=]|].
    intros [= <-]. simpl. split; [|done].
    unfold isdir. simpl. apply bool_decide_eq_true_2. right. set_solver.
Qed.

Lemma os_makedirs_events (P : event → Prop) p exist_ok :
  P (EvMakedirs p) → steps (extends P) (os_makedirs p exist_ok).
Proof. intros HP. unfold os_makedirs. steps_extends. Qed.

Lemma os_makedirs_files p exist_ok w r w' :
  os_makedirs p exist_ok w = (r, w') → files w' = files w.
Proof.
  unfold os_makedirs, bind, emit, get_world. simpl.
  repeat case_match; by intros [= _ <-].
Qed.

(** [shutil.copyfile] onto a directory raises, whatever the source. *)
Lemma copyfile_onto_directory src dst w :
  isdir w dst = true →
  ∃ e, copyfile src dst w
       = (Raise e, World (files w) (dirs w) (trace w ++ [EvCopyfile src dst])).
Proof.
  intros Hdir. unfold copyfile, bind, emit, get_world. simpl.
  destruct (files w !! src); [|by eexists].
  unfold isdir in *. simpl. rewrite Hdir. by eexists.
Qed.

(** Lines 162-173 never get past the first copy: the directory made by
    line 162 is the target that line 165 hands to [shutil.copyfile]. *)
Lemma place_and_index_raises w :
  ∃ e w', place_and_index w = (Raise e, w')
          ∧ files w' = files w
          ∧ extends before_indexing w w'.
Proof.
  unfold place_and_index.
  destruct (os_makedirs repo_dir false w) as [[[]|e] w1] eqn:Hmk.
  - pose proof (os_makedirs_made _ _ _ _ Hmk) as (Hdir & Hfiles & Htrace).
    destruct (copyfile_onto_directory ctxusb_path repo_dir
                (World (files w1) (dirs w1)
                   (trace w1 ++ [EvLog INFO (LogCopying "ctxusb.rpm")])))
      as [e He]; [done|].
    exists e. eexists. split; [|split].
    + rewrite (bind_ok _ _ _ _ _ Hmk).
      rewrite (bind_ok _ _ w1 tt _ (eq_refl : log _ _ w1 = _)).
      by rewrite (bind_raise _ _ _ _ _ He).
    + done.
    + exists [EvMakedirs repo_dir; EvLog INFO (LogCopying "ctxusb.rpm");
              EvCopyfile ctxusb_path repo_dir].
      simpl. rewrite Htrace, <- !app_assoc. split; [done|].
      repeat constructor.
  - exists e, w1. split; [by rewrite (bind_raise _ _ _ _ _ Hmk)|].
    split; [by eapply os_makedirs_files|].
    eapply os_makedirs_events; [|exact Hmk]. done.
Qed.

Lemma transfer_before_indexing url p ev :
  transfer_event url p ev → before_indexing ev.
Proof. by destruct ev as [| | | | | | | | |[]]. Qed.

Lemma download_batch_events env hashes batch :
  steps (extends before_indexing) (download_batch env batch hashes).
Proof.
  unfold download_batch. apply steps_for_each.
  - apply extends_refl.
  - apply extends_trans.
  - intros [url p] w r w' Hdl.
    apply download_file_touches in Hdl as (_ & _ & Hext).
    eapply extends_weaken; [|exact Hext]. apply transfer_before_indexing.
Qed.

Lemma remove_old_events rpm_file :
  steps (extends before_indexing) (remove_old rpm_file).
Proof.
  unfold remove_old. apply steps_bind; [apply extends_trans| |].
  - intros w r w' [= _ <-]. apply extends_refl.
  - intros []; [|apply steps_ret, extends_refl].
    unfold os_remove. steps_extends.
Qed.

(** X12: the script never ends normally.  Whatever the servers answer and
    whatever the file system holds, it ends with an exception, and it has
    then neither run [createrepo_c] nor printed its final report: when
    everything before succeeds, line 165 copies onto the directory that
    line 162 has just made. *)
Theorem script_never_completes env w :
  ∃ e w', main env w = (Raise e, w') ∧ extends before_indexing w w'.
Proof.
  unfold main.
  destruct (get_expected_hashes_from_api env repo_owner repo_name
              release_tag w) as [[m|e] w1] eqn:Hget.
  2: { exists e, w1. split; [by rewrite (bind_raise _ _ _ _ _ Hget)|].
       apply get_expected_hashes_observes, observes_extends in Hget.
       eapply extends_weaken; [|exact Hget]. by intros ? [->|?]; [|destruct ev]. }
  assert (H1 : extends before_indexing w w1).
  { apply get_expected_hashes_observes, observes_extends in Hget.
    eapply extends_weaken; [|exact Hget].
    intros ev [->|Hlog]; [done|]. by destruct ev. }
  rewrite (bind_ok _ _ _ _ _ Hget).
  case_bool_decide; [by exists (Exception MsgAutoFetchFailed), w1|].
  destruct (for_each [ctxusb_path; icaclient_path] remove_old w1)
    as [[[]|e] w2] eqn:Hrm.
  2: { exists e, w2. split; [by rewrite (bind_raise _ _ _ _ _ Hrm)|].
       eapply extends_trans; [exact H1|].
       eapply steps_for_each; [apply extends_refl|apply extends_trans
                              |apply remove_old_events|exact Hrm]. }
  assert (H2 : extends before_indexing w1 w2).
  { eapply steps_for_each; [apply extends_refl|apply extends_trans
                           |apply remove_old_events|exact Hrm]. }
  rewrite (bind_ok _ _ _ _ _ Hrm).
  destruct (download_batch env artifacts m w2) as [[[]|e] w3] eqn:Hdl.
  2: { exists e, w3. split; [by rewrite (bind_raise _ _ _ _ _ Hdl)|].
       eapply extends_trans; [exact H1|]. eapply extends_trans; [exact H2|].
       by eapply download_batch_events. }
  rewrite (bind_ok _ _ _ _ _ Hdl).
  destruct (place_and_index_raises w3) as (e & w4 & Hpl & _ & H4).
  exists e, w4. split; [by rewrite (bind_raise _ _ _ _ _ Hpl)|].
  eapply extends_trans; [exact H1|]. eapply extends_trans; [exact H2|].
  eapply extends_trans; [|exact H4]. by eapply download_batch_events.
Qed.

Lemma remove_old_runs rpm_file w :
  remove_old rpm_file w
  = if isfile w rpm_file then
      (Ok tt, World (delete rpm_file (files w)) (dirs w)
                (trace w ++ [EvRemove rpm_file]))
    else if isdir w rpm_file then
      (Raise (OSError "remove"),
       World (files w) (dirs w) (trace w ++ [EvRemove rpm_file]))
    else (Ok tt, w).
Proof.
  unfold remove_old, bind, path_exists, os_remove, bind, emit, get_world.
  simpl. destruct (isfile w rpm_file) eqn:Hf; simpl.
  - unfold isfile in *. simpl. by rewrite Hf.
  - destruct (isdir w rpm_file) eqn:Hd; simpl; [|done].
    unfold isfile in *. simpl. by rewrite Hf.
Qed.

(** X13: the clean-up loop of lines 155-157.  When it returns, neither
    destination exists as a file any more, every other file is as it was
    and no directory has changed; it raises, which ends the script, only
    when a directory stands at one of the two paths. *)
Theorem stale_files_removed w r w' :
  for_each [ctxusb_path; icaclient_path] remove_old w = (r, w') →
  dirs w' = dirs w
  ∧ match r with
    | Ok _ => files w' = delete icaclient_path (delete ctxusb_path (files w))
    | Raise _ => ctxusb_path ∈ dirs w ∨ icaclient_path ∈ dirs w
    end.
Proof.
  assert (Hdir : ∀ v p, p ≠ "/"%string → isdir v p = true → p ∈ dirs v).
  { intros v p Hp [?|?]%bool_decide_eq_true; done. }
  simpl. unfold bind. rewrite (remove_old_runs ctxusb_path w).
  assert (Hsecond : ∀ v,
    dirs v = dirs w → files v = delete ctxusb_path (files w) →
    (let (r0, w0) := remove_old icaclient_path v in
     match r0 with Ok _ => ret tt w0 | Raise e => (Raise e, w0) end)
    = (r, w') →
    dirs w' = dirs w
    ∧ match r with
      | Ok _ => files w' = delete icaclient_path (delete ctxusb_path (files w))
      | Raise _ => ctxusb_path ∈ dirs w ∨ icaclient_path ∈ dirs w
      end).
  { intros v Hdv Hfv. rewrite (remove_old_runs icaclient_path v).
    destruct (isfile v icaclient_path) eqn:Hf.
    - intros [= <- <-]. simpl. by rewrite Hfv.
    - destruct (isdir v icaclient_path) eqn:Hd.
      + intros [= <- <-]. simpl. split; [done|]. right.
        rewrite <- Hdv. by apply Hdir.
      + intros [= <- <-]. split; [done|]. rewrite Hfv.
        symmetry. apply delete_id. rewrite <- Hfv.
        apply not_elem_of_dom. intros Hin.
        unfold isfile in Hf. by rewrite bool_decide_eq_true_2 in Hf. }
  destruct (isfile w ctxusb_path) eqn:Hf.
  - by apply Hsecond.
  - destruct (isdir w ctxusb_path) eqn:Hd.
    + intros [= <- <-]. simpl. split; [done|]. left. by apply Hdir.
    + apply Hsecond; [done|]. symmetry. apply delete_id.
      apply not_elem_of_dom. intros Hin.
      unfold isfile in Hf. by rewrite bool_decide_eq_true_2 in Hf.
Qed.

Lemma stale_files_removed_witness :
  ∃ w',
    for_each [ctxusb_path; icaclient_path] remove_old
      (World {[ ctxusb_path := [x01]; "/etc/hosts"%string := [x02] ]} ∅ [])
    = (Ok tt, w')
    ∧ files w' !! ctxusb_path = None
    ∧ files w' !! "/etc/hosts"%string = Some [x02].
Proof.
  eexists.
  assert (Hrun : for_each [ctxusb_path; icaclient_path] remove_old
                   (World {[ ctxusb_path := [x01];
                             "/etc/hosts"%string := [x02] ]} ∅ [])
                 = (Ok tt, _)) by (vm_compute; reflexivity).
  destruct (stale_files_removed _ _ _ Hrun) as [_ Hfiles].
  split; [exact Hrun|]. rewrite Hfiles. split; vm_compute; reflexivity.
Defined.

(** A batch changes no file outside the destinations of its artifacts. *)
Lemma download_batch_frame env hashes q : ∀ batch w r w',
  q ∉ batch.*2 →
  download_batch env batch hashes w = (r, w') →
  files w' !! q = files w !! q.
Proof.
  unfold download_batch.
  induction batch as [|[url p] batch IH]; intros w r w' Hq; simpl.
  - by intros [= _ <-].
  - apply not_elem_of_cons in Hq as [Hne Hq]. simpl in Hne.
    intros [([] & w1 & Ha & Hrest)|(e & Ha & _)]%bind_inv.
    + rewrite (IH _ _ _ Hq Hrest).
      apply download_file_touches in Ha as (Hf & _). by apply Hf.
    + apply download_file_touches in Ha as (Hf & _). by apply Hf.
Qed.

(** What a normal return of the batch tells about each destination. *)
Lemma download_batch_ok_inv env hashes : ∀ batch w w',
  download_batch env batch hashes w = (Ok tt, w') →
  ∀ url save_path, (url, save_path) ∈ batch →
    ∃ content,
      files w' !! save_path = Some content
      ∧ hashes !! basename save_path
        = Some (str_lower (hexdigest (sha256 content))).
Proof.
  induction batch as [|[u p] batch IH]; intros w w' Hrun url save_path Hin.
  - by apply elem_of_nil in Hin.
  - unfold download_batch in Hrun. simpl in Hrun.
    apply bind_inv in Hrun as [([] & w1 & Ha & Hrest)|(e & _ & [=])].
    fold (download_batch env batch hashes) in Hrest.
    destruct (decide (save_path ∈ batch.*2)) as [Hlater|Hlast].
    + apply list_elem_of_fmap in Hlater as ([u' p'] & -> & Hin').
      by eapply IH.
    + apply elem_of_cons in Hin as [[= -> ->]|Hin].
      * rewrite (download_batch_frame _ _ _ _ _ _ _ Hlast Hrest).
        apply download_file_ok_inv in Ha as (content & ? & ? & _).
        by exists content.
      * destruct Hlast. apply list_elem_of_fmap. by exists (url, save_path).
Qed.

(** X18: when the batch returns, every destination of the batch holds a
    file whose lowercase hexadecimal SHA-256 is the digest stored under
    its basename. *)
Theorem download_batch_ok_verified env hashes : ∀ batch w w',
  download_batch env batch hashes w = (Ok tt, w') →
  ∀ url save_path, (url, save_path) ∈ batch →
    ∃ content,
      files w' !! save_path = Some content
      ∧ hashes !! basename save_path
        = Some (str_lower (hexdigest (sha256 content))).
Proof. apply download_batch_ok_inv. Qed.

Lemma download_batch_ok_verified_witness :
  ∃ w' content,
    download_batch healthy_env artifacts (hashes_of plain_digest) empty_world
    = (Ok tt, w')
    ∧ files w' !! icaclient_path = Some content
    ∧ hashes_of plain_digest !! basename icaclient_path
      = Some (str_lower (hexdigest (sha256 content))).
Proof.
  eexists.
  assert (Hrun : download_batch healthy_env artifacts (hashes_of plain_digest)
                   empty_world = (Ok tt, _)) by (vm_compute; reflexivity).
  destruct (download_batch_ok_verified _ _ _ _ _ Hrun icaclient_url
              icaclient_path) as (content & Hfile & Hhash).
  { unfold artifacts. apply elem_of_cons. right. apply elem_of_cons. by left. }
  exists content. split; [exact Hrun|]. split; [exact Hfile|exact Hhash].
Defined.

Lemma no_copy_among w w' evs src dst :
  extends (λ ev, ¬ is_copy ev) w w' →
  trace w' = trace w ++ evs → EvCopyfile src dst ∉ evs.
Proof.
  intros (evs' & Htrace & Hall) Heq Hin.
  rewrite Htrace in Heq. apply app_inv_head in Heq as ->.
  rewrite Forall_forall in Hall. by apply (Hall _ Hin).
Qed.

Lemma before_placement env hashes w1 :
  (∀ w r w', for_each [ctxusb_path; icaclient_path] remove_old w = (r, w') →
             extends (λ ev, ¬ is_copy ev) w w')
  ∧ (∀ w r w', download_batch env artifacts hashes w = (r, w') →
               extends (λ ev, ¬ is_copy ev) w w')
  ∧ (∀ r w', get_expected_hashes_from_api env repo_owner repo_name
               release_tag w1 = (r, w') →
             extends (λ ev, ¬ is_copy ev) w1 w').
Proof.
  split; [|split].
  - apply steps_for_each; [apply extends_refl|apply extends_trans|].
    intros p. unfold remove_old.
    apply steps_bind; [apply extends_trans| |].
    + intros w r w' [= _ <-]. apply extends_refl.
    + intros []; [|apply steps_ret, extends_refl].
      unfold os_remove. steps_extends.
  - unfold download_batch.
    apply steps_for_each; [apply extends_refl|apply extends_trans|].
    intros [url p] w r w' Hdl.
    apply download_file_touches in Hdl as (_ & _ & Hext).
    eapply extends_weaken; [|exact Hext].
    intros ev Hev Hc. destruct ev; simpl in *; done.
  - intros r w' Hget.
    apply get_expected_hashes_observes, observes_extends in Hget.
    eapply extends_weaken; [|exact Hget].
    intros ev [->|Hlog] Hc; [done|]. destruct ev; simpl in *; done.
Qed.

(** X19: the script calls [shutil.copyfile] only after both artifacts
    have been verified: if a run has issued a copy, the metadata step had
    returned a mapping, and each of the two destinations holds a file
    whose lowercase hexadecimal SHA-256 is the digest that mapping stores
    under its name. *)
Theorem placement_only_after_verification env w r w' evs src dst :
  main env w = (r, w') →
  trace w' = trace w ++ evs →
  EvCopyfile src dst ∈ evs →
  ∃ hashes w1 ctxusb icaclient,
    get_expected_hashes_from_api env repo_owner repo_name release_tag w
    = (Ok hashes, w1)
    ∧ files w' !! ctxusb_path = Some ctxusb
    ∧ hashes !! "ctxusb.rpm"%string
      = Some (str_lower (hexdigest (sha256 ctxusb)))
    ∧ files w' !! icaclient_path = Some icaclient
    ∧ hashes !! "ICAClient.rpm"%string
      = Some (str_lower (hexdigest (sha256 icaclient))).
Proof.
  intros Hmain Htrace Hcopy. unfold main in Hmain.
  destruct (get_expected_hashes_from_api env repo_owner repo_name
              release_tag w) as [[m|e0] w1] eqn:Hget.
  2: { rewrite (bind_raise _ _ _ _ _ Hget) in Hmain.
       injection Hmain as _ <-. exfalso.
       destruct (before_placement env ∅ w) as (_ & _ & H3).
       eapply (no_copy_among w w1 evs src dst); [by eapply H3|done..]. }
  assert (H1 : extends (λ ev, ¬ is_copy ev) w w1).
  { destruct (before_placement env ∅ w) as (_ & _ & H3). by eapply H3. }
  rewrite (bind_ok _ _ _ _ _ Hget) in Hmain.
  destruct (before_placement env m w) as (Hrm & Hdl & _).
  case_bool_decide.
  { injection Hmain as _ <-. exfalso.
    by eapply (no_copy_among w w1 evs src dst). }
  destruct (for_each [ctxusb_path; icaclient_path] remove_old w1)
    as [[[]|e2] w2] eqn:Hremove.
  2: { rewrite (bind_raise _ _ _ _ _ Hremove) in Hmain.
       injection Hmain as _ <-. exfalso.
       eapply (no_copy_among w w2 evs src dst); [|done..].
       eapply extends_trans; [exact H1|]. by eapply Hrm. }
  rewrite (bind_ok _ _ _ _ _ Hremove) in Hmain.
  destruct (download_batch env artifacts m w2) as [[[]|e3] w3] eqn:Hbatch.
  2: { rewrite (bind_raise _ _ _ _ _ Hbatch) in Hmain.
       injection Hmain as _ <-. exfalso.
       eapply (no_copy_among w w3 evs src dst); [|done..].
       eapply extends_trans; [exact H1|].
       eapply extends_trans; [by eapply Hrm|by eapply Hdl]. }
  rewrite (bind_ok _ _ _ _ _ Hbatch) in Hmain.
  destruct (place_and_index_raises w3) as (e4 & w4 & Hplace & Hfiles & _).
  rewrite (bind_raise _ _ _ _ _ Hplace) in Hmain.
  injection Hmain as _ <-.
  destruct (download_batch_ok_inv _ _ _ _ _ Hbatch ctxusb_url ctxusb_path)
    as (c1 & Hc1 & Hh1).
  { unfold artifacts. apply elem_of_cons. by left. }
  destruct (download_batch_ok_inv _ _ _ _ _ Hbatch icaclient_url
              icaclient_path) as (c2 & Hc2 & Hh2).
  { unfold artifacts. apply elem_of_cons. right. apply elem_of_cons.
    by left. }
  exists m, w1, c1, c2. rewrite Hfiles. split_and!; done.
Qed.

Lemma placement_only_after_verification_witness :
  ∃ r w' (hashes : gmap string string) ctxusb,
    main healthy_env empty_world = (r, w')
    ∧ last (trace w') = Some (EvCopyfile ctxusb_path repo_dir)
    ∧ files w' !! ctxusb_path = Some ctxusb
    ∧ hashes !! "ctxusb.rpm"%string
      = Some (str_lower (hexdigest (sha256 ctxusb))).
Proof.
  eexists _, _.
  assert (Hmain : main healthy_env empty_world = (_, _))
    by (vm_compute; reflexivity).
  assert (Hlast : last (trace (main healthy_env empty_world).2)
                  = Some (EvCopyfile ctxusb_path repo_dir))
    by (vm_compute; reflexivity).
  rewrite Hmain in Hlast.
  destruct (placement_only_after_verification _ _ _ _ _ ctxusb_path repo_dir
              Hmain eq_refl (last_Some_elem_of _ _ Hlast))
    as (hashes & w1 & ctxusb & icaclient & _ & Hc1 & Hh1 & _).
  exists hashes, ctxusb. split; [exact Hmain|]. split; [exact Hlast|].
  split; [exact Hc1|exact Hh1].
Defined.

(** ** The digest computed by compute_sha256 *)

Lemma be_bytes_length n x : length (be_bytes n x) = n.
Proof. induction n as [|k IH]; simpl; [done|]. by rewrite IH. Qed.

Lemma be_bytes_small n x : Forall (λ b, (b < 256)%N) (be_bytes n x).
Proof.
  induction n as [|k IH]; simpl; constructor; [|done].
  apply N.mod_lt. done.
Qed.

Lemma sha256_length data : length (sha256 data) = 32%nat.
Proof. reflexivity. Qed.

Lemma sha256_small data : Forall (λ b, (b < 256)%N) (sha256 data).
Proof.
  unfold sha256. apply Forall_forall. intros b Hb.
  apply list_elem_of_join in Hb as (l & Hb & Hl).
  apply list_elem_of_fmap in Hl as (x & -> & _).
  revert b Hb. apply Forall_forall, be_bytes_small.
Qed.

Lemma chars_of_chars l : chars (of_chars l) = l.
Proof. apply list_ascii_of_string_of_list_ascii. Qed.

Lemma of_chars_length l : String.length (of_chars l) = length l.
Proof. induction l as [|c l IH]; simpl; [done|]. by rewrite IH. Qed.

Lemma hex_digit_lower n : (n < 16)%N → lower_hex (hex_digit n).
Proof.
  intros Hn. unfold lower_hex, hex_digit.
  assert (Hi : (N.to_nat n < 16)%nat) by lia.
  destruct (N.to_nat n) as [|k]; [vm_compute; set_solver|].
  do 15 (destruct k as [|k]; [vm_compute; set_solver|]). lia.
Qed.

Lemma hexdigest_chars digest :
  Forall (λ b, (b < 256)%N) digest →
  length (chars (hexdigest digest)) = (2 * length digest)%nat
  ∧ Forall lower_hex (chars (hexdigest digest)).
Proof.
  intros Hsmall. unfold hexdigest. rewrite chars_of_chars. split.
  - clear Hsmall. induction digest as [|b digest IH]; [done|].
    change (S (S (length
              (mjoin ((λ b, [hex_digit (b / 16)%N; hex_digit (b mod 16)%N])
                        <$> digest))))
            = (2 * S (length digest))%nat).
    rewrite IH. lia.
  - apply Forall_forall. intros c Hc.
    apply list_elem_of_join in Hc as (l & Hc & Hl).
    apply list_elem_of_fmap in Hl as (b & -> & Hb).
    rewrite Forall_forall in Hsmall. specialize (Hsmall b Hb).
    apply elem_of_cons in Hc as [->|Hc]; [|apply elem_of_cons in Hc as [->|Hc]].
    + apply hex_digit_lower, N.Div0.div_lt_upper_bound. lia.
    + apply hex_digit_lower, N.mod_lt. done.
    + by apply elem_of_nil in Hc.
Qed.

Lemma ascii_lower_hex c : lower_hex c → ascii_lower c = c.
Proof.
  unfold lower_hex. intros Hc. vm_compute in Hc.
  repeat (apply elem_of_cons in Hc as [->|Hc]; [done|]).
  by apply elem_of_nil in Hc.
Qed.

Lemma fmap_lower_hex l : Forall lower_hex l → ascii_lower <$> l = l.
Proof.
  induction 1 as [|c l Hc _ IH]; [done|].
  rewrite fmap_cons, IH. by rewrite (ascii_lower_hex c Hc).
Qed.

Lemma of_chars_chars s : of_chars (chars s) = s.
Proof. apply string_of_list_ascii_of_string. Qed.

Lemma str_lower_hex s : Forall lower_hex (chars s) → str_lower s = s.
Proof.
  intros Hs. unfold str_lower. rewrite (fmap_lower_hex _ Hs).
  apply of_chars_chars.
Qed.


(** The digests of the empty message and of ["abc"], as FIPS 180-4 and
    [hashlib] give them. *)
Lemma sha256_known_digests :
  hexdigest (sha256 [])
  = "e3b0c44298fc1c149afbf4c8996fb92427ae41e4649b934ca495991b7852b855"%string
  ∧ hexdigest (sha256 [x61; x62; x63])
    = "ba7816bf8f01cfea414140de5dae2223b00361a396177a9cb410ff61f20015ad"%string.
Proof. split; vm_compute; reflexivity. Qed.

(** ** More on the metadata step *)

Lemma ascii_lower_idemp c : ascii_lower (ascii_lower c) = ascii_lower c.
Proof. destruct c as [[] [] [] [] [] [] [] []]; reflexivity. Qed.

Lemma str_lower_idemp s : str_lower (str_lower s) = str_lower s.
Proof.
  unfold str_lower. rewrite chars_of_chars, <- list_fmap_compose.
  f_equal. apply list_fmap_ext. intros _ c _. apply ascii_lower_idemp.
Qed.



Lemma log_logs lvl r : steps (observes is_log) (log lvl r).
Proof. by apply emit_observes. Qed.

Lemma collect_asset_logs asset acc :
  steps (observes is_log) (collect_asset asset acc).
Proof.
  unfold collect_asset.
  steps_observes_with
    ltac:(first [ apply py_get_observes | apply py_endswith_observes
                | apply py_startswith_observes | apply log_logs ]).
Qed.

Lemma collect_assets_logs assets acc :
  steps (observes is_log) (collect_assets assets acc).
Proof.
  revert acc. induction assets as [|a assets IH]; intros acc; simpl.
  - steps_observes.
  - apply steps_bind; [apply observes_trans|apply collect_asset_logs|].
    intros acc'. apply IH.
Qed.

(** What follows the request, and the handlers, only log. *)
Lemma after_request_logs (release_info : json) :
  steps (observes is_log)
    (assets_value ←' py_get release_info "assets" (JArr []) ;;
     assets ←' py_iter assets_value ;;
     expected_hashes ←' collect_assets assets ∅ ;;
     (if bool_decide (expected_hashes = ∅) then
        log WARNING LogNoRpmAssets ;;'
        names ←' asset_names assets ;;
        log INFO (LogAvailableAssets names)
      else
        log INFO (LogFetchedCount (size expected_hashes))) ;;'
     ret expected_hashes).
Proof.
  steps_observes_with
    ltac:(first [ apply py_get_observes | apply py_iter_observes
                | apply collect_assets_logs | apply asset_names_observes
                | apply log_logs ]).
Qed.

Lemma api_handler_logs e : steps (observes is_log) (api_handler e).
Proof. unfold api_handler. steps_observes_with ltac:(apply log_logs). Qed.

(** X16: however it ends, [get_expected_hashes_from_api] touches no file
    and no directory and issues exactly one request, the one to the
    release endpoint, before anything else; all the rest it leaves are
    log records. *)
Theorem metadata_step_footprint env owner name tag w r w' :
  get_expected_hashes_from_api env owner name tag w = (r, w') →
  files w' = files w ∧ dirs w' = dirs w
  ∧ ∃ logs, trace w' = trace w ++ EvUrlopen (api_url owner name tag) None :: logs
            ∧ Forall is_log logs.
Proof.
  unfold get_expected_hashes_from_api, get_expected_hashes_body.
  set (url := api_url owner name tag).
  set (w0 := World (files w) (dirs w) (trace w ++ [EvUrlopen url None])).
  assert (Hgoal : observes is_log w0 w' →
    files w' = files w ∧ dirs w' = dirs w
    ∧ ∃ logs, trace w' = trace w ++ EvUrlopen url None :: logs
              ∧ Forall is_log logs).
  { intros (Hf & Hd & logs & Ht & Hl). split; [done|]. split; [done|].
    exists logs. split; [|done]. rewrite Ht. simpl.
    by rewrite <- app_assoc. }
  assert (Hreq : ∀ x v, fetch_release_info env url w = (x, v) → v = w0).
  { intros x v. unfold fetch_release_info, bind, emit.
    destruct (api_of env url); by intros [= _ <-]. }
  intros Hrun. apply Hgoal. clear Hgoal.
  apply try_except_inv in Hrun as [(m & Hbody & _)|(e & w1 & Hbody & Hh)].
  - apply bind_inv in Hbody as [(j & v & Hj & Hrest)|(e & Hj & [=])].
    apply Hreq in Hj as ->. by eapply (after_request_logs j).
  - apply bind_inv in Hbody as [(j & v & Hj & Hrest)|(e' & Hj & _)].
    + apply Hreq in Hj as ->. eapply observes_trans.
      * by eapply (after_request_logs j).
      * by eapply api_handler_logs.
    + apply Hreq in Hj as ->. by eapply api_handler_logs.
Qed.

Lemma metadata_step_footprint_witness :
  ∃ w' logs,
    get_expected_hashes_from_api (metadata_env ApiMalformed)
      repo_owner repo_name release_tag empty_world
    = (Raise JSONDecodeError, w')
    ∧ files w' = ∅
    ∧ trace w'
      = EvUrlopen (api_url repo_owner repo_name release_tag) None :: logs
    ∧ Forall is_log logs.
Proof.
  eexists.
  assert (Hrun : get_expected_hashes_from_api (metadata_env ApiMalformed)
                   repo_owner repo_name release_tag empty_world
                 = (Raise JSONDecodeError, _)) by (vm_compute; reflexivity).
  destruct (metadata_step_footprint _ _ _ _ _ _ _ Hrun)
    as (Hfiles & _ & logs & Htrace & Hlogs).
  exists logs. split; [exact Hrun|]. split; [exact Hfiles|].
  split; [exact Htrace|exact Hlogs].
Defined.

Lemma asset_names_ok assets : ∀ w names w',
  asset_names assets w = (Ok names, w') →
  Forall2 (λ a n, ∃ fields, a = JObj fields
                            ∧ dict_lookup fields "name" = Some n)
          assets names.
Proof.
  induction assets as [|a assets IH]; intros w names w'; simpl.
  - intros [= <- _]. constructor.
  - intros [(n & w1 & Hn & Hrest)|(? & _ & [=])]%bind_inv.
    apply bind_inv in Hrest as [(ns & w2 & Hns & [= <- _])|(? & _ & [=])].
    constructor; [|by eapply IH].
    unfold py_getitem in Hn. destruct a; try (by inversion Hn).
    destruct (dict_lookup fields "name") eqn:Hl; inversion Hn; subst.
    by exists fields.
Qed.

(** X17: [get_expected_hashes_from_api] returns an empty mapping only for a
    release none of whose assets has both a name ending in ['.rpm'] and a
    ['sha256:'] digest, and all of whose assets are objects with a
    ['name']: the names are listed in the last log record.  (An asset
    without a name makes line 36 raise instead.) *)
Theorem empty_mapping_lists_names env owner name tag w w' :
  get_expected_hashes_from_api env owner name tag w = (Ok ∅, w') →
  ∃ release_info assets names,
    api_of env (api_url owner name tag) = ApiJSON release_info
    ∧ assets_of release_info = Some assets
    ∧ (∀ a f d, a ∈ assets → ¬ qualifies a f d)
    ∧ Forall2 (λ a n, ∃ fields, a = JObj fields
                              ∧ dict_lookup fields "name" = Some n)
              assets names
    ∧ last (trace w') = Some (EvLog INFO (LogAvailableAssets names)).
Proof.
  intros Hrun.
  destruct (get_expected_hashes_ok_inv _ _ _ _ _ _ _ Hrun)
    as (j & assets & w1 & w2 & Hapi & Hassets & Hloop).
  exists j, assets.
  assert (Hnone : ∀ a f d, a ∈ assets → ¬ qualifies a f d).
  { intros a f d Hin Hq.
    apply collect_assets_ok in Hloop as (_ & _ & _ & H4 & _).
    destruct (H4 a f d Hin Hq) as [v Hv]. by rewrite lookup_empty in Hv. }
  revert Hrun. unfold get_expected_hashes_from_api.
  intros [(m' & Hbody & [= <-])|(e & v & _ & Hh)]%try_except_inv.
  2:{ unfold api_handler in Hh.
      apply bind_inv in Hh as [(? & ? & _ & [=])|(? & _ & [=])]. }
  unfold get_expected_hashes_body in Hbody.
  apply bind_inv in Hbody as [(j' & v1 & Hj & Hbody)|(? & _ & [=])].
  apply bind_inv in Hbody as [(av & v2 & Hav & Hbody)|(? & _ & [=])].
  apply bind_inv in Hbody as [(assets' & v3 & Hit & Hbody)|(? & _ & [=])].
  apply bind_inv in Hbody as [(m0 & v4 & Hm0 & Hbody)|(? & _ & [=])].
  apply bind_inv in Hbody as [([] & v5 & Hlog & [= -> <-])|(? & _ & [=])].
  rewrite bool_decide_eq_true_2 in Hlog by done.
  apply bind_inv in Hlog as [([] & v6 & _ & Hlog)|(? & _ & [=])].
  apply bind_inv in Hlog as [(names & v7 & Hnames & [= <-])|(? & _ & [=])].
  assert (assets' = assets) as ->.
  { assert (j' = j) as ->.
    { unfold fetch_release_info, bind, emit in Hj.
      destruct (api_of env _); inversion Hj; congruence. }
    unfold py_get in Hav. unfold assets_of in Hassets.
    destruct j; try (by inversion Hav). injection Hav as <- _.
    unfold py_iter in Hit.
    destruct (default _ _); unfold ret, raise in Hit; inversion Hit;
      congruence. }
  exists names. split_and!; try done.
  - by eapply asset_names_ok.
  - simpl. by rewrite last_snoc.
Qed.

Lemma empty_mapping_lists_names_witness :
  ∃ w' names,
    get_expected_hashes_from_api
      (metadata_env (ApiJSON (release_json [asset_json "notes.txt" "sha256:12"])))
      repo_owner repo_name release_tag empty_world
    = (Ok ∅, w')
    ∧ last (trace w') = Some (EvLog INFO (LogAvailableAssets names)).
Proof.
  eexists.
  assert (Hrun : get_expected_hashes_from_api
                   (metadata_env
                      (ApiJSON (release_json
                                  [asset_json "notes.txt" "sha256:12"])))
                   repo_owner repo_name release_tag empty_world
                 = (Ok ∅, _)) by (vm_compute; reflexivity).
  destruct (empty_mapping_lists_names _ _ _ _ _ _ Hrun)
    as (j & assets & names & _ & _ & _ & _ & Hlast).
  exists names. split; [exact Hrun|exact Hlast].
Defined.
